(** * moz-phab [patch] command: a shallow embedding and its properties

    This development embeds [src/mozphab/commands/patch.py] in Rocq and
    proves properties of the dependency-stack resolution, the base
    selection, the sequenced application of the stack and the
    revision-id parser.

    The command talks to collaborators that live outside the file: the
    Conduit client, the VCS repository object, the configuration, the
    logger, the prompt and the spinner.  They are modelled as a [World]
    of deterministic oracles; every call to a collaborator is recorded
    as an [event] in a chronological trace, so that "what the run did"
    is a statement about the trace.

    Modelling choices:
    - the service is a snapshot: its answers depend on the request only;
      the repository's answer to [apply_patch] may depend on the commits
      created so far, and a rejected patch creates no commit;
    - [wait_message] is recorded when its block is entered;
    - transport failures and exceptions raised inside [before_patch] or
      [mozphab.patch.apply_patch] are outside the model;
    - the dicts returned by the service have the keys that [patch] reads,
      except ["refs"], which is read with a default, and the entries of
      the dict of diffs, whose absence raises [KeyError]. *)

From stdpp Require Import base gmap strings list pretty.
From Stdlib Require Import ZArith Lia.

Set Default Proof Using "Type".

(** ** Data as the service returns it *)

(** [diff["attachments"]["commits"]["commits"][i]["author"]] *)
Record Author := {
  author_name : string;
  author_email : string;
}.

(** An entry of [diff["fields"]["refs"]]. *)
Record Ref := {
  ref_type : string;
  ref_identifier : string;
}.

(** A diff as returned by [conduit.get_diffs].  The key ["refs"] is read
    with [.get("refs", [])], so it may be absent. *)
Record Diff := {
  diff_id : Z;
  diff_refs : option (list Ref);
  diff_dateCreated : Z;
  diff_commits : list Author;
}.

(** A revision as returned by [conduit.get_revisions]. *)
Record Revision := {
  rev_id : Z;
  rev_phid : string;
  rev_title : string;
  rev_summary : string;
  rev_diffPHID : string;
}.

(** The parsed command line ([args]).  [apply_to] is [None] when the
    option was not given. *)
Record Args := {
  revision_id : Z;
  raw : bool;
  no_commit : bool;
  no_parents : bool;
  no_children : bool;
  no_dependencies : bool;
  include_abandoned : bool;
  yes : bool;
  apply_to : option string;
}.

(** What [repo.apply_patch(raw, body, author, date)] is asked to commit. *)
Record Commit := {
  commit_raw : string;
  commit_body : string;
  commit_author : string;
  commit_date : Z;
}.

(** ** Exceptions, events, state *)

(** Exceptions that leave [patch]: mozphab's [Error], and the built-in
    [KeyError] / [IndexError] of a failed dict or list access. *)
Inductive exn :=
| Error (msg : string)
| KeyError (key : string)
| IndexError.

Inductive result (A : Type) :=
| Ok (a : A)
| Raise (e : exn).
Arguments Ok {A} a.
Arguments Raise {A} e.

(** One constructor per collaborator call. *)
Inductive event :=
| Wait (msg : string)                                 (* wait_message(msg) *)
| ConduitCheck                                        (* conduit.check() *)
| CheckVcs                                            (* repo.check_vcs() *)
| IsWorktreeClean                                     (* repo.is_worktree_clean() *)
| GetRevisionsByIds (ids : list Z)                    (* conduit.get_revisions(ids=..) *)
| GetAncestorPhids (phid : string)                    (* conduit.get_ancestor_phids *)
| GetSuccessorPhids (phid : string) (abandoned : bool)(* conduit.get_successor_phids *)
| Prompt (question : string) (options : list string)  (* prompt(question, options) *)
| ConfigWrite (full_stack : bool)                     (* config.write() *)
| GetRevisionsByPhids (phids : list string)           (* conduit.get_revisions(phids=..) *)
| LogInfo (msg : string)                              (* logger.info *)
| LogWarning (msg : string)                           (* logger.warning *)
| GetDiffs (phids : list string)                      (* conduit.get_diffs *)
| CheckNode (node : string)                           (* repo.check_node *)
| BeforePatch (node : option string) (branch : option string) (* repo.before_patch *)
| GetRawDiff (id : Z)                                 (* differential.getrawdiff *)
| ApplyPatch (raw_diff : string) (path : string)      (* mozphab.patch.apply_patch *)
| RepoApplyPatch (c : Commit) (applied : bool).       (* repo.apply_patch *)

(** The mutable part of a run: the calls made so far, the persisted
    [config.always_full_stack] preference, and the commits this run has
    created in the repository. *)
Record State := {
  trace : list event;
  always_full_stack : bool;
  commits : list Commit;
}.

Definition init_state (full_stack : bool) : State :=
  {| trace := []; always_full_stack := full_stack; commits := [] |}.

(** ** The collaborators

    Helpers of [mozphab.helpers] ([prepare_body], [short_node]) are not
    part of the embedded file and are taken as given functions. *)
Record World := {
  conduit_check : bool;
  (* [Some msg]: repo.check_vcs() raises Error(msg) *)
  check_vcs : option string;
  is_worktree_clean : bool;
  (* isinstance(repo, Mercurial) *)
  is_mercurial : bool;
  get_revisions_by_ids : list Z → list Revision;
  get_revisions_by_phids : list string → list Revision;
  (* [None]: NonLinearException *)
  get_ancestor_phids : string → option (list string);
  get_successor_phids : string → bool → option (list string);
  prompt : string → list string → string;
  get_diffs : list string → gmap string Diff;
  (* [inl msg]: NotFoundError(msg); [inr node]: the resolved node *)
  check_node : string → string + string;
  get_raw_diff : Z → string;
  (* [false]: subprocess.CalledProcessError; the repository history so
     far is the first argument *)
  repo_apply_patch : list Commit → Commit → bool;
  phab_url : string;
  repo_path : string;
  (* config.apply_patch_to *)
  config_apply_patch_to : string;
  short_node : string → string;
  prepare_body : string → string → Z → string → option Z → string;
}.

(** ** A state-and-exception monad for the run *)

Definition M (A : Type) : Type := State → result A * State.

Definition M_ret {A} (a : A) : M A := λ st, (Ok a, st).

Definition M_bind {A B} (f : A → M B) (m : M A) : M B :=
  λ st, match m st with
        | (Ok a, st') => f a st'
        | (Raise e, st') => (Raise e, st')
        end.

Global Instance M_mret : MRet M := @M_ret.
Global Instance M_mbind : MBind M := @M_bind.

Definition raise {A} (e : exn) : M A := λ st, (Raise e, st).

(** Nothing to do. *)
Definition pass : M unit := mret ().

Definition emit (e : event) : M unit :=
  λ st, (Ok (), {| trace := trace st ++ [e];
                   always_full_stack := always_full_stack st;
                   commits := commits st |}).

Definition wait_message (msg : string) : M unit := emit (Wait msg).
Definition log_info (msg : string) : M unit := emit (LogInfo msg).
Definition log_warning (msg : string) : M unit := emit (LogWarning msg).

Definition get_always_full_stack : M bool :=
  λ st, (Ok (always_full_stack st), st).

Definition set_always_full_stack (b : bool) : M unit :=
  λ st, (Ok (), {| trace := trace st;
                   always_full_stack := b;
                   commits := commits st |}).

(** [config.write()] persists the current preference. *)
Definition config_write : M unit :=
  λ st, emit (ConfigWrite (always_full_stack st)) st.

(** [repo.apply_patch]: on success the commit is appended to the history. *)
Definition call_repo_apply_patch (w : World) (c : Commit) : M bool :=
  λ st, let applied := repo_apply_patch w (commits st) c in
        (Ok applied,
         {| trace := trace st ++ [RepoApplyPatch c applied];
            always_full_stack := always_full_stack st;
            commits := if applied then commits st ++ [c] else commits st |}).

(** Python's [d[k]] on a dict. *)
Definition dict_get (d : gmap string Diff) (k : string) : M Diff :=
  match d !! k with
  | Some v => mret v
  | None => raise (KeyError k)
  end.

(** Python's truth value of a list. *)
Definition nonempty {A} (l : list A) : bool :=
  match l with [] => false | _ => true end.

(** The one-character string ["\n"]. *)
Definition newline : string := String (Ascii.ascii_of_nat 10) EmptyString.

(** ["%s" % n] for an integer. *)
Definition str_of_int (n : Z) : string := pretty n.

(** ** [get_base_ref] *)

Fixpoint first_base (refs : list Ref) : option string :=
  match refs with
  | [] => None
  | ref :: refs' =>
      if String.eqb (ref_type ref) "base" then Some (ref_identifier ref)
      else first_base refs'
  end.

Definition get_base_ref (diff : Diff) : option string :=
  first_base (default [] (diff_refs diff)).

(** ** Calls to the collaborators *)

Definition call_conduit_check (w : World) : M bool :=
  emit ConduitCheck;; mret (conduit_check w).

Definition call_check_vcs (w : World) : M unit :=
  emit CheckVcs;;
  match check_vcs w with
  | Some msg => raise (Error msg)
  | None => pass
  end.

Definition call_is_worktree_clean (w : World) : M bool :=
  emit IsWorktreeClean;; mret (is_worktree_clean w).

Definition call_get_revisions_by_ids (w : World) (ids : list Z) : M (list Revision) :=
  emit (GetRevisionsByIds ids);; mret (get_revisions_by_ids w ids).

Definition call_get_revisions_by_phids (w : World) (phids : list string)
  : M (list Revision) :=
  emit (GetRevisionsByPhids phids);; mret (get_revisions_by_phids w phids).

Definition call_get_ancestor_phids (w : World) (phid : string)
  : M (option (list string)) :=
  emit (GetAncestorPhids phid);; mret (get_ancestor_phids w phid).

Definition call_get_successor_phids (w : World) (phid : string) (abandoned : bool)
  : M (option (list string)) :=
  emit (GetSuccessorPhids phid abandoned);;
  mret (get_successor_phids w phid abandoned).

Definition call_prompt (w : World) (question : string) (options : list string)
  : M string :=
  emit (Prompt question options);; mret (prompt w question options).

Definition call_get_diffs (w : World) (phids : list string) : M (gmap string Diff) :=
  emit (GetDiffs phids);; mret (get_diffs w phids).

Definition call_check_node (w : World) (node : string) : M (string + string) :=
  emit (CheckNode node);; mret (check_node w node).

Definition call_get_raw_diff (w : World) (id : Z) : M string :=
  emit (GetRawDiff id);; mret (get_raw_diff w id).

(** ** [patch], phase by phase *)

(** Lines 46-65: the connection check and, unless [--raw], the guard. *)
Definition preflight (w : World) (args : Args) : M unit :=
  wait_message "Checking connection to Phabricator.";;
  ok ← call_conduit_check w;
  if negb ok then raise (Error "Failed to use Conduit API") else
  if negb (raw args) then
    wait_message "Checking VCS";;
    call_check_vcs w;;
    wait_message "Checking repository..";;
    clean ← call_is_worktree_clean w;
    if negb clean then
      raise (Error ("Uncommitted changes present. Please "
                    +:+ (if is_mercurial w then "shelve" else "stash")
                    +:+ " them or commit before patching."))
    else pass
  else pass.

(** Lines 67-70: [--no-dependencies] switches both walks off. *)
Definition eff_no_parents (args : Args) : bool :=
  if no_dependencies args then true else no_parents args.
Definition eff_no_children (args : Args) : bool :=
  if no_dependencies args then true else no_children args.

Definition nonlinear_msg (args : Args) (tail : string) : string :=
  "Revision D" +:+ str_of_int (revision_id args)
  +:+ " has non-linear dependency relationships." +:+ newline +:+ tail.

(** Lines 79-88: the ancestor walk; a branching ancestry is fatal. *)
Definition fetch_parents (w : World) (args : Args) (revision : Revision)
  : M (list string) :=
  if negb (eff_no_parents args) then
    wait_message ("Fetching D" +:+ str_of_int (revision_id args) +:+ "'s parents..");;
    r ← call_get_ancestor_phids w (rev_phid revision);
    match r with
    | Some parents => mret parents
    | None => raise (Error (nonlinear_msg args "Unable to patch the stack."))
    end
  else mret [].

(** Lines 90-102: the descendant walk; a branching one is only warned about. *)
Definition fetch_children (w : World) (args : Args) (revision : Revision)
  : M (list string) :=
  if negb (eff_no_children args) then
    wait_message ("Fetching D" +:+ str_of_int (revision_id args) +:+ "'s children..");;
    r ← call_get_successor_phids w (rev_phid revision) (include_abandoned args);
    match r with
    | Some children => mret children
    | None =>
        log_warning (nonlinear_msg args "Unable to apply child revisions.");;
        mret []
    end
  else mret [].

Definition children_question (args : Args) (children : list string) : string :=
  "Revision D" +:+ str_of_int (revision_id args) +:+ " has "
  +:+ (if Nat.eqb (length children) 1 then "a child commit" else "child commits")
  +:+ ".  Would you like to patch all children?".

(** Lines 104-116: whether the children are patched too. *)
Definition confirm_children (w : World) (args : Args) (children : list string)
  : M (list string) :=
  if negb (yes args) then
    if nonempty children then
      full_stack ← get_always_full_stack;
      if negb full_stack then
        res ← call_prompt w (children_question args children) ["Yes"; "No"; "Always"];
        if String.eqb res "Always" then
          set_always_full_stack true;;
          config_write;;
          mret children
        else if String.eqb res "No" then mret []
        else mret children
      else mret children
    else mret children
  else mret children.

(** Lines 118-126: the revision data of the relatives, in patching order. *)
Definition fetch_related (w : World) (revisions : list Revision)
    (parents children : list string) : M (list Revision) :=
  revisions ←
    (if nonempty parents then
       wait_message "Fetching related revisions..";;
       ps ← call_get_revisions_by_phids w parents;
       mret (reverse (revisions ++ ps))
     else mret revisions);
  if nonempty children then
    wait_message "Fetching related revisions..";;
    cs ← call_get_revisions_by_phids w children;
    mret (revisions ++ cs)
  else mret revisions.

(** Lines 67-126: from the revision id to the stack to patch. *)
Definition fetch_stack (w : World) (args : Args) : M (list Revision) :=
  wait_message ("Fetching D" +:+ str_of_int (revision_id args) +:+ "..");;
  revisions ← call_get_revisions_by_ids w [revision_id args];
  match revisions with
  | [] => raise (Error "Revision not found")
  | revision :: _ =>
      parents ← fetch_parents w args revision;
      children ← fetch_children w args revision;
      children ← confirm_children w args children;
      fetch_related w revisions parents children
  end.

Definition patching_msg (revisions : list Revision) : string :=
  "Patching revision" +:+ (if Nat.ltb 1 (length revisions) then "s" else "")
  +:+ ": "
  +:+ String.concat " " ((λ r, "D" +:+ str_of_int (rev_id r)) <$> revisions).

Definition no_commit_info_msg (rev : Revision) : string :=
  "A diff without commit information detected in revision D"
  +:+ str_of_int (rev_id rev) +:+ "." +:+ newline
  +:+ "Use `--no-commit` to patch the working tree.".

(** Lines 140-146: every diff to be committed needs commit information. *)
Fixpoint check_commit_info (diffs : gmap string Diff) (revisions : list Revision)
  : M unit :=
  match revisions with
  | [] => pass
  | rev :: revisions' =>
      diff ← dict_get diffs (rev_diffPHID rev);
      if negb (nonempty (diff_commits diff)) then
        raise (Error (no_commit_info_msg rev))
      else check_commit_info diffs revisions'
  end.

(** Lines 128-146: announce the stack, pull the diffs, check them. *)
Definition pull_diffs (w : World) (args : Args) (revisions : list Revision)
  : M (gmap string Diff) :=
  (if negb (raw args) then log_info (patching_msg revisions) else pass);;
  wait_message "Downloading patch information..";;
  diffs ← call_get_diffs w (rev_diffPHID <$> revisions);
  (if negb (no_commit args) && negb (raw args)
   then check_commit_info diffs revisions else pass);;
  mret diffs.

(** Python's [l[0]] and [l[-1]]. *)
Definition list_first {A} (l : list A) : M A :=
  match head l with Some x => mret x | None => raise IndexError end.
Definition list_last {A} (l : list A) : M A :=
  match last l with Some x => mret x | None => raise IndexError end.

(** Line 153: [args.apply_to or config.apply_patch_to]. *)
Definition eff_apply_to (w : World) (args : Args) : string :=
  match apply_to args with
  | Some s => if String.eqb s "" then config_apply_patch_to w else s
  | None => config_apply_patch_to w
  end.

Definition no_base_msg : string :=
  "Base commit not found in diff. Use `--apply-to here` to patch current commit.".

Definition unknown_revision_msg (w : World) (apply_to : string)
    (base_node : string) (e : string) : string :=
  "Unknown revision: " +:+ short_node w base_node
  +:+ (if String.eqb e "" then "" else newline +:+ e)
  +:+ (if String.eqb apply_to "base"
       then newline +:+ "Use --apply-to to set the base commit." else "").

(** Lines 155-164: the node named by [--apply-to]; [None] for "here". *)
Definition choose_base (apply_to : string) (revisions : list Revision)
    (diffs : gmap string Diff) : M (option string) :=
  if String.eqb apply_to "base" then
    first ← list_first revisions;
    diff ← dict_get diffs (rev_diffPHID first);
    match get_base_ref diff with
    | Some node => if String.eqb node "" then raise (Error no_base_msg)
                   else mret (Some node)
    | None => raise (Error no_base_msg)
    end
  else if negb (String.eqb apply_to "here") then mret (Some apply_to)
  else mret None.

(** Lines 166-178: the chosen node must exist in the repository. *)
Definition validate_base (w : World) (apply_to : string) (base_node : option string)
  : M (option string) :=
  if negb (String.eqb apply_to "here") then
    match base_node with
    | Some node =>
        wait_message ("Checking " +:+ short_node w node +:+ "..");;
        r ← call_check_node w node;
        match r with
        | inr node' => mret (Some node')
        | inl e => raise (Error (unknown_revision_msg w apply_to node e))
        end
    | None => mret None
    end
  else mret base_node.

(** Lines 151-181: select the base and let the repository prepare. *)
Definition select_base (w : World) (args : Args) (revisions : list Revision)
    (diffs : gmap string Diff) (target_revision_id : Z) : M unit :=
  if negb (raw args) then
    let apply_to := eff_apply_to w args in
    base_node ← choose_base apply_to revisions diffs;
    base_node ← validate_base w apply_to base_node;
    let branch_name :=
      if no_commit args then None
      else Some ("phab-D" +:+ str_of_int target_revision_id) in
    emit (BeforePatch base_node branch_name)
  else pass.

Definition author_str (a : Author) : string :=
  author_name a +:+ " <" +:+ author_email a +:+ ">".

(** Lines 186-219: the body of the loop for one revision. *)
Definition apply_one (w : World) (args : Args) (diffs : gmap string Diff)
    (last_id : Z) (parent : option Z) (rev : Revision) : M unit :=
  let body := prepare_body w (rev_title rev) (rev_summary rev) (rev_id rev)
                (phab_url w) parent in
  diff ← dict_get diffs (rev_diffPHID rev);
  wait_message ("Downloading D" +:+ str_of_int (rev_id rev) +:+ "..");;
  raw_diff ← call_get_raw_diff w (diff_id diff);
  (if no_commit args then
     wait_message ("Applying D" +:+ str_of_int (rev_id rev) +:+ "..");;
     emit (ApplyPatch raw_diff (repo_path w))
   else if raw args then
     log_info raw_diff
   else
     first ← list_first (diff_commits diff);
     let author := author_str first in
     wait_message ("Applying D" +:+ str_of_int (rev_id rev) +:+ "..");;
     applied ← call_repo_apply_patch w
                 {| commit_raw := raw_diff; commit_body := body;
                    commit_author := author;
                    commit_date := diff_dateCreated diff |};
     if negb applied then raise (Error "Patch failed to apply") else pass);;
  if negb (raw args) && negb (Z.eqb (rev_id rev) last_id) then
    log_info ("D" +:+ str_of_int (rev_id rev) +:+ " applied")
  else pass.

(** Lines 183-219: the loop, [parent] carrying the previous revision id. *)
Fixpoint apply_loop (w : World) (args : Args) (diffs : gmap string Diff)
    (last_id : Z) (parent : option Z) (revisions : list Revision) : M unit :=
  match revisions with
  | [] => pass
  | rev :: revisions' =>
      apply_one w args diffs last_id parent rev;;
      apply_loop w args diffs last_id (Some (rev_id rev)) revisions'
  end.

(** Lines 183-222. *)
Definition apply_stack (w : World) (args : Args) (revisions : list Revision)
    (diffs : gmap string Diff) (target_revision_id : Z) : M unit :=
  apply_loop w args diffs target_revision_id None revisions;;
  if negb (raw args) then
    log_warning ("D" +:+ str_of_int target_revision_id +:+ " applied")
  else pass.

(** Lines 46-146: everything up to the checked diffs. *)
Definition resolve (w : World) (args : Args)
  : M (list Revision * gmap string Diff) :=
  preflight w args;;
  revisions ← fetch_stack w args;
  diffs ← pull_diffs w args revisions;
  mret (revisions, diffs).

(** The command. *)
Definition patch (w : World) (args : Args) : M unit :=
  '(revisions, diffs) ← resolve w args;
  target ← list_last revisions;
  let target_revision_id := rev_id target in
  select_base w args revisions diffs target_revision_id;;
  apply_stack w args revisions diffs target_revision_id.


(** ** [check_revision_id]: the revision-id parser

    A Python [str] is a sequence of code points.  The two patterns are
    kept as data and run by a small backtracking matcher that implements
    the constructs they use with the semantics of Python's [re] module:
    [^] matches at the start of the string only, [$] matches at the end
    and also just before a newline that ends the string, [c?] and
    [[..]+] are greedy and give back on failure, and [\d] is any decimal
    digit of the interpreter's Unicode database.  [int] raises
    [ValueError] on a run of digits that is longer than the
    interpreter's limit on decimal strings. *)
Module RevisionId.

Definition pystr : Type := list N.

Fixpoint of_string (s : string) : pystr :=
match s with
| EmptyString => []
| String a s' => Ascii.N_of_ascii a :: of_string s'
end.

(** A single character given as a one-character literal. *)
Definition chr (s : string) : N :=
match s with
| String a _ => Ascii.N_of_ascii a
| EmptyString => 0%N
end.

Inductive atom :=
| Bol                          (* ^ *)
| Eol                          (* $ *)
| Lit (c : N)                  (* a literal character *)
| OptLit (c : N)               (* c? *)
| Plus (cls : N → bool)        (* [..]+ *)
| GroupPlus (cls : N → bool).  (* ([..]+), the capture group *)

Inductive parsed :=
| Parsed (id : Z)
| ArgumentTypeError (msg : pystr)
| ValueError.                  (* raised by [int] *)

Section Matcher.
(** The decimal value of every non-ASCII code point of general
  category [Nd]; this table belongs to the Python interpreter. *)
Variable nd_value : N → option N.

(** [sys.get_int_max_str_digits()]: the longest decimal string that
  [int] converts, 0 when there is no limit (4300 unless configured). *)
Variable max_str_digits : N.

(** In ASCII the decimal digits are ["0"] to ["9"]. *)
Definition digit_value (c : N) : option N :=
if ((48 <=? c) && (c <=? 57))%N then Some (c - 48)%N
else if (c <? 128)%N then None
else nd_value c.

(** [\d] *)
Definition is_digit (c : N) : bool :=
match digit_value c with Some _ => true | None => false end.

(** [[^/]] *)
Definition not_slash (c : N) : bool := negb (c =? chr "/")%N.

(** One or more characters of [cls], the longest run first; [k] is the
  rest of the pattern, given the text consumed and the text left. *)
Fixpoint plus_loop (cls : N → bool) (k : pystr → pystr → option pystr)
  (consumed s : pystr) : option pystr :=
match s with
| c :: s' =>
    if cls c then
      match plus_loop cls k (consumed ++ [c]) s' with
      | Some g => Some g
      | None => k (consumed ++ [c]) s'
      end
    else None
| [] => None
end.

(** Match pattern [p] at the current position.  [at_start] tells
  whether that position is the start of the string, [s] is the text
  from there on and [g] the text of group 1 so far; the result is
  group 1 of the first match found. *)
Fixpoint match_here (p : list atom) : bool → pystr → pystr → option pystr :=
match p with
| [] => λ _ _ g, Some g
| a :: p' =>
    let k := match_here p' in
    match a with
    | Bol => λ at_start s g, if at_start then k at_start s g else None
    | Eol => λ at_start s g,
        match s with
        | [] => k at_start s g
        | [c] => if (c =? 10)%N then k at_start s g else None
        | _ => None
        end
    | Lit c => λ _ s g,
        match s with
        | c' :: s' => if (c' =? c)%N then k false s' g else None
        | [] => None
        end
    | OptLit c => λ at_start s g,
        match s with
        | c' :: s' =>
            if (c' =? c)%N then
              match k false s' g with
              | Some r => Some r
              | None => k at_start s g
              end
            else k at_start s g
        | [] => k at_start s g
        end
    | Plus cls => λ _ s g, plus_loop cls (λ _ rest, k false rest g) [] s
    | GroupPlus cls => λ _ s _, plus_loop cls (λ text rest, k false rest text) [] s
    end
end.

(** [re.search]: the first position, from the left, where [p] matches. *)
Fixpoint search_from (p : list atom) (at_start : bool) (s : pystr)
: option pystr :=
match match_here p at_start s [] with
| Some g => Some g
| None =>
    match s with
    | [] => None
    | _ :: s' => search_from p false s'
    end
end.

Definition search (p : list atom) (s : pystr) : option pystr :=
search_from p true s.

(** The number that a run of decimal digits denotes. *)
Definition decimal_value (text : pystr) : Z :=
Z.of_N (fold_left (λ acc c, 10 * acc + default 0 (digit_value c))%N text 0%N).

(** The limit on decimal strings: a run of more than 640 digits is
  refused when a limit is set and the run is longer than it; shorter
  runs are converted whatever the limit. *)
Definition too_long (text : pystr) : bool :=
if (640 <? N.of_nat (length text))%N
then (0 <? max_str_digits)%N && (max_str_digits <? N.of_nat (length text))%N
else false.

(** [int(text)] on a run of decimal digits; [None] is [ValueError]. *)
Definition int (text : pystr) : option Z :=
if too_long text then None else Some (decimal_value text).

(** [r"^D?(\d+)$"] *)
Definition number_pattern : list atom :=
[Bol; OptLit (chr "D"); GroupPlus is_digit; Eol].

(** [r"^https?://[^/]+/D(\d+)"] *)
Definition url_pattern : list atom :=
[Bol; Lit (chr "h"); Lit (chr "t"); Lit (chr "t"); Lit (chr "p");
 OptLit (chr "s"); Lit (chr ":"); Lit (chr "/"); Lit (chr "/");
 Plus not_slash; Lit (chr "/"); Lit (chr "D"); GroupPlus is_digit].

Definition invalid_msg (value : pystr) : pystr :=
of_string "Invalid Revision ID (expected number or URL): " ++ value ++ [10%N].

(** [return int(m.group(1))] *)
Definition return_int (text : pystr) : parsed :=
match int text with
| Some id => Parsed id
| None => ValueError
end.

Definition check_revision_id (value : pystr) : parsed :=
(* D123 or 123 *)
match search number_pattern value with
| Some text => return_int text
| None =>
    (* Full URL *)
    match search url_pattern value with
    | Some text => return_int text
    | None =>
        (* Invalid *)
        ArgumentTypeError (invalid_msg value)
    end
end.
End Matcher.

(** A database without digits beyond ASCII. *)
Definition ascii_only : N → option N := λ _, None.

(** The limit of an interpreter that was not configured otherwise. *)
Definition default_limit : N := 4300.

End RevisionId.

(** ** Vocabulary for the statements *)

(** The state after one more event, and after several. *)
Definition record (e : event) (st : State) : State :=
  {| trace := trace st ++ [e];
     always_full_stack := always_full_stack st;
     commits := commits st |}.

Fixpoint record_all (es : list event) (st : State) : State :=
  match es with
  | [] => st
  | e :: es' => record_all es' (record e st)
  end.

(** The options offered by the prompt about the children. *)
Definition children_options : list string := ["Yes"; "No"; "Always"].

(** Calls that fetch diff content from the service. *)
Definition is_diff_fetch (e : event) : bool :=
  match e with
  | GetDiffs _ | GetRawDiff _ => true
  | _ => false
  end.

(** Calls of the working-tree guard. *)
Definition is_guard_call (e : event) : bool :=
  match e with
  | CheckVcs | IsWorktreeClean | CheckNode _ | BeforePatch _ _ => true
  | _ => false
  end.

(** Calls that change the working tree or the history. *)
Definition is_mutation (e : event) : bool :=
  match e with
  | BeforePatch _ _ | ApplyPatch _ _ | RepoApplyPatch _ _ => true
  | _ => false
  end.

(** The texts written with [logger.info]. *)
Definition info_texts (es : list event) : list string :=
  omap (λ e, match e with LogInfo msg => Some msg | _ => None end) es.

(** The connection works and, unless [--raw], the guard is satisfied. *)
Definition preflight_ok (w : World) (args : Args) : bool :=
  conduit_check w
  && (raw args
      || (match check_vcs w with None => true | Some _ => false end
          && is_worktree_clean w)).

(** The calls made by lines 46-65. *)
Definition preflight_events (w : World) (args : Args) : list event :=
  [Wait "Checking connection to Phabricator."; ConduitCheck]
  ++ (if conduit_check w && negb (raw args) then
        [Wait "Checking VCS"; CheckVcs]
        ++ match check_vcs w with
           | None => [Wait "Checking repository.."; IsWorktreeClean]
           | Some _ => []
           end
      else []).

(** Calls that neither fetch a diff nor touch the working tree. *)
Definition quiet (e : event) : Prop :=
  is_diff_fetch e = false ∧ is_mutation e = false.

(** What the ancestor walk yields for [patch]: nothing to walk when
    parents are not requested, [None] on [NonLinearException]. *)
Definition walk_parents (w : World) (args : Args) (root : Revision)
  : option (list string) :=
  if eff_no_parents args then Some []
  else get_ancestor_phids w (rev_phid root).

Definition walk_children (w : World) (args : Args) (root : Revision)
  : option (list string) :=
  if eff_no_children args then Some []
  else get_successor_phids w (rev_phid root) (include_abandoned args).

(** The children are kept: there is nothing to ask about, or nobody is
    asked, or the answer is not "No". *)
Definition children_confirmed (w : World) (args : Args) (full_stack : bool)
    (children : list string) : bool :=
  yes args
  || negb (nonempty children)
  || full_stack
  || negb (String.eqb (prompt w (children_question args children) children_options)
             "No").

Definition parents_events (args : Args) (root : Revision) : list event :=
  if eff_no_parents args then []
  else [Wait ("Fetching D" +:+ str_of_int (revision_id args) +:+ "'s parents..");
        GetAncestorPhids (rev_phid root)].

Definition children_events (args : Args) (root : Revision) : list event :=
  if eff_no_children args then []
  else [Wait ("Fetching D" +:+ str_of_int (revision_id args) +:+ "'s children..");
        GetSuccessorPhids (rev_phid root) (include_abandoned args)].

Definition related_events (phids : list string) : list event :=
  if nonempty phids
  then [Wait "Fetching related revisions.."; GetRevisionsByPhids phids]
  else [].

Definition root_events (args : Args) : list event :=
  [Wait ("Fetching D" +:+ str_of_int (revision_id args) +:+ "..");
   GetRevisionsByIds [revision_id args]].

(** Lines 46-126: the guard and the resolution of the stack. *)
Definition resolve_stack (w : World) (args : Args) : M (list Revision) :=
  preflight w args;; fetch_stack w args.

(** The calls made by lines 128-137. *)
Definition pull_events (args : Args) (revisions : list Revision) : list event :=
  (if raw args then [] else [LogInfo (patching_msg revisions)])
  ++ [Wait "Downloading patch information..";
      GetDiffs (rev_diffPHID <$> revisions)].

(** The same diff with other commit information. *)
Definition set_commits (f : Diff → list Author) (d : Diff) : Diff :=
  {| diff_id := diff_id d;
     diff_refs := diff_refs d;
     diff_dateCreated := diff_dateCreated d;
     diff_commits := f d |}.

(** The same world, except that the service reports other commit
    information in its diffs. *)
Definition with_commits (f : Diff → list Author) (w : World) : World :=
  {| conduit_check := conduit_check w;
     check_vcs := check_vcs w;
     is_worktree_clean := is_worktree_clean w;
     is_mercurial := is_mercurial w;
     get_revisions_by_ids := get_revisions_by_ids w;
     get_revisions_by_phids := get_revisions_by_phids w;
     get_ancestor_phids := get_ancestor_phids w;
     get_successor_phids := get_successor_phids w;
     prompt := prompt w;
     get_diffs := λ phids, set_commits f <$> get_diffs w phids;
     check_node := check_node w;
     get_raw_diff := get_raw_diff w;
     repo_apply_patch := repo_apply_patch w;
     phab_url := phab_url w;
     repo_path := repo_path w;
     config_apply_patch_to := config_apply_patch_to w;
     short_node := short_node w;
     prepare_body := prepare_body w |}.

(** The exception raised for a stack that cannot be committed: about
    the first revision whose diff is missing or has no commit information. *)
Definition blames (diffs : gmap string Diff) (revisions : list Revision)
    (e : exn) : Prop :=
  ∃ rev, rev ∈ revisions
    ∧ ((∃ diff, diffs !! rev_diffPHID rev = Some diff
          ∧ diff_commits diff = []
          ∧ e = Error (no_commit_info_msg rev))
       ∨ (diffs !! rev_diffPHID rev = None ∧ e = KeyError (rev_diffPHID rev))).

(** The commit that the loop asks the repository to create for [rev],
    [parent] being the id of the revision before it. *)
Definition commit_for (w : World) (parent : option Z) (rev : Revision)
    (diff : Diff) (first : Author) : Commit :=
  {| commit_raw := get_raw_diff w (diff_id diff);
     commit_body := prepare_body w (rev_title rev) (rev_summary rev) (rev_id rev)
                      (phab_url w) parent;
     commit_author := author_str first;
     commit_date := diff_dateCreated diff |}.

(** The id of the revision just before position [i] of the stack. *)
Definition depends_on (revisions : list Revision) (i : nat) : option Z :=
  match i with
  | 0 => None
  | S j => rev_id <$> revisions !! j
  end.

Definition downloading_msg (rev : Revision) : string :=
  "Downloading D" +:+ str_of_int (rev_id rev) +:+ "..".
Definition applying_msg (rev : Revision) : string :=
  "Applying D" +:+ str_of_int (rev_id rev) +:+ "..".
Definition applied_msg (id : Z) : string :=
  "D" +:+ str_of_int id +:+ " applied".

(** The calls of one round of the loop in commit mode. *)
Definition commit_events (rev : Revision) (diff : Diff) (c : Commit)
    (applied : bool) : list event :=
  [Wait (downloading_msg rev); GetRawDiff (diff_id diff);
   Wait (applying_msg rev); RepoApplyPatch c applied].

(** A computation that leaves the history alone. *)
Definition keeps_commits {A} (m : M A) : Prop :=
  ∀ st, commits (m st).2 = commits st.

(** A computation all of whose calls satisfy [P]. *)
Definition calls_only (P : event → Prop) {A} (m : M A) : Prop :=
  ∀ st, ∃ evs, trace (m st).2 = trace st ++ evs ∧ Forall P evs.

(** ** The spellings of a revision id *)
Module RevisionIdSpec.
Import RevisionId.

(** The longest prefix of [s] in [cls], and what follows it. *)
Fixpoint span (cls : N → bool) (s : pystr) : pystr * pystr :=
  match s with
  | c :: s' =>
      if cls c then let '(run, rest) := span cls s' in (c :: run, rest)
      else ([], s)
  | [] => ([], [])
  end.

Section Shapes.
Variable nd_value : N → option N.

(** A non-empty run of decimal digits. *)
Definition digits (text : pystr) : Prop :=
  text ≠ [] ∧ Forall (λ c, is_digit nd_value c = true) text.

(** [text] does not go on with a digit. *)
Definition no_digit_ahead (rest : pystr) : Prop :=
  match rest with
  | c :: _ => is_digit nd_value c = false
  | [] => True
  end.

(** "123" or "D123", possibly followed by one newline. *)
Definition number_shape (value text : pystr) : Prop :=
  digits text
  ∧ ∃ d nl, value = d ++ text ++ nl
      ∧ (d = [] ∨ d = of_string "D")
      ∧ (nl = [] ∨ nl = [10%N]).

(** "http://host/D123..." or "https://host/D123...", where the host
    is not empty and has no "/", and [text] is the whole run of
    digits after "/D". *)
Definition url_shape (value text : pystr) : Prop :=
  digits text
  ∧ ∃ s host rest,
      value = of_string "http" ++ s ++ of_string "://" ++ host
              ++ of_string "/D" ++ text ++ rest
      ∧ (s = [] ∨ s = of_string "s")
      ∧ host ≠ []
      ∧ Forall (λ c, c ≠ chr "/") host
      ∧ no_digit_ahead rest.

(** [(\d+)$]: the capture group and the end of the first pattern. *)
Definition digits_then_end (s : pystr) : option pystr :=
  plus_loop (is_digit nd_value)
    (λ text rest, match_here [Eol] false rest text) [] s.
End Shapes.
End RevisionIdSpec.

(** The raw diff texts of a stack, in stack order. *)
Definition raw_texts (w : World) (diffs : gmap string Diff)
    (revisions : list Revision) : list string :=
  omap (λ rev, (λ diff, get_raw_diff w (diff_id diff)) <$> diffs !! rev_diffPHID rev)
    revisions.

(** Calls that leave the working tree and the guard alone. *)
Definition hands_off (e : event) : Prop :=
  is_guard_call e = false ∧ is_mutation e = false.

(** Calls that, in addition, write nothing with [logger.info]. *)
Definition silent (e : event) : Prop :=
  hands_off e ∧ info_texts [e] = [].

(** The calls of one round of the loop in raw mode. *)
Definition raw_events (w : World) (rev : Revision) (diff : Diff) : list event :=
  [Wait (downloading_msg rev); GetRawDiff (diff_id diff);
   LogInfo (get_raw_diff w (diff_id diff))].

(** ** A small concrete service and repository

    Three revisions D101 <- D102 <- D103, each with one diff.  The
    variants differ in what the two walks report, in the reference list
    of the diffs, and in which patches the repository accepts. *)
Module Demo.

Definition revision (n : Z) : Revision :=
  {| rev_id := n;
     rev_phid := "PHID-DREV-" +:+ str_of_int n;
     rev_title := "Change " +:+ str_of_int n;
     rev_summary := "Summary";
     rev_diffPHID := "PHID-DIFF-" +:+ str_of_int n |}.

Definition ann : Author :=
  {| author_name := "Ann"; author_email := "ann@example.org" |}.

Definition base_refs : option (list Ref) :=
  Some [ {| ref_type := "branch"; ref_identifier := "default" |};
         {| ref_type := "base"; ref_identifier := "abcdef" |} ].

Definition branch_refs : option (list Ref) :=
  Some [ {| ref_type := "branch"; ref_identifier := "default" |} ].

Definition diff (refs : option (list Ref)) (n : Z) : Diff :=
  {| diff_id := n + 1000;
     diff_refs := refs;
     diff_dateCreated := 1600000000 + n;
     diff_commits := [ann] |}.

Definition known : list Revision := [revision 101; revision 102; revision 103].

Definition linear_parents (phid : string) : option (list string) :=
  if String.eqb phid "PHID-DREV-102" then Some ["PHID-DREV-101"] else Some [].

Definition linear_children (phid : string) (abandoned : bool)
  : option (list string) :=
  if String.eqb phid "PHID-DREV-102" then Some ["PHID-DREV-103"] else Some [].

Definition branching_walk (phid : string) : option (list string) := None.

(** The repository rejects the patch of D102 and accepts every other. *)
Definition rejects_second (history : list Commit) (c : Commit) : bool :=
  negb (String.eqb (commit_raw c) "diff 1102").

Definition accepts_all (history : list Commit) (c : Commit) : bool := true.

Definition body (title summary : string) (id : Z) (url : string)
    (depends_on : option Z) : string :=
  title +:+ newline +:+ summary +:+ newline
  +:+ "Differential Revision: " +:+ url +:+ "/D" +:+ str_of_int id
  +:+ match depends_on with
      | Some parent => newline +:+ "Depends on D" +:+ str_of_int parent
      | None => ""
      end.

Definition make (parents : string → option (list string))
    (children : string → bool → option (list string))
    (refs : option (list Ref))
    (accepts : list Commit → Commit → bool) : World :=
  {| conduit_check := true;
     check_vcs := None;
     is_worktree_clean := true;
     is_mercurial := true;
     get_revisions_by_ids := λ ids,
       filter (λ r, rev_id r ∈ ids) known;
     get_revisions_by_phids := λ phids,
       omap (λ phid, head (filter (λ r, rev_phid r = phid) known)) phids;
     get_ancestor_phids := parents;
     get_successor_phids := children;
     prompt := λ _ _, "Yes";
     get_diffs := λ phids,
       list_to_map
         ((λ r, (rev_diffPHID r, diff refs (rev_id r)))
            <$> filter (λ r, rev_diffPHID r ∈ phids) known);
     check_node := λ node, inr node;
     get_raw_diff := λ id, "diff " +:+ str_of_int id;
     repo_apply_patch := accepts;
     phab_url := "https://phabricator.example";
     repo_path := "/repo";
     config_apply_patch_to := "base";
     short_node := λ node, node;
     prepare_body := body |}.

Definition world : World :=
  make linear_parents linear_children base_refs rejects_second.
Definition friendly : World :=
  make linear_parents linear_children base_refs accepts_all.
Definition branching_parents : World :=
  make branching_walk linear_children base_refs accepts_all.
Definition branching_children : World :=
  make linear_parents (λ phid _, branching_walk phid) base_refs accepts_all.
Definition without_base : World :=
  make linear_parents linear_children branch_refs accepts_all.

(** [moz-phab patch D102] *)
Definition args : Args :=
  {| revision_id := 102; raw := false; no_commit := false;
     no_parents := false; no_children := false; no_dependencies := false;
     include_abandoned := false; yes := false; apply_to := None |}.

(** [moz-phab patch D102 --yes] *)
Definition args_yes : Args :=
  {| revision_id := 102; raw := false; no_commit := false;
     no_parents := false; no_children := false; no_dependencies := false;
     include_abandoned := false; yes := true; apply_to := None |}.

(** [moz-phab patch D102 --raw] *)
Definition args_raw : Args :=
  {| revision_id := 102; raw := true; no_commit := false;
     no_parents := false; no_children := false; no_dependencies := false;
     include_abandoned := false; yes := false; apply_to := None |}.

(** [moz-phab patch D102 --raw --no-commit] *)
Definition args_raw_no_commit : Args :=
  {| revision_id := 102; raw := true; no_commit := true;
     no_parents := false; no_children := false; no_dependencies := false;
     include_abandoned := false; yes := false; apply_to := None |}.

Definition stack : list Revision := known.

Definition diffs : gmap string Diff :=
  get_diffs world (rev_diffPHID <$> stack).

End Demo.

(** The decimal form of [id] occurs in [msg]. *)
Definition mentions (id : Z) (msg : string) : bool :=
  match String.index 0 (str_of_int id) msg with
  | Some _ => true
  | None => false
  end.

(** ** Further vocabulary *)

(** The error with which the connection check or the guard stops the run. *)
Definition preflight_error (w : World) (args : Args) : string :=
  if negb (conduit_check w) then "Failed to use Conduit API"
  else match check_vcs w with
       | Some msg => msg
       | None =>
           "Uncommitted changes present. Please "
           +:+ (if is_mercurial w then "shelve" else "stash")
           +:+ " them or commit before patching."
       end.

(** Line 180: the branch or bookmark that [before_patch] is asked for. *)
Definition branch_name_for (args : Args) (target_revision_id : Z) : option string :=
  if no_commit args then None
  else Some ("phab-D" +:+ str_of_int target_revision_id).

(** The calls of one round of the loop in no-commit mode. *)
Definition no_commit_events (w : World) (last_id : Z) (rev : Revision)
    (diff : Diff) : list event :=
  [Wait (downloading_msg rev); GetRawDiff (diff_id diff);
   Wait (applying_msg rev);
   ApplyPatch (get_raw_diff w (diff_id diff)) (repo_path w)]
  ++ (if Z.eqb (rev_id rev) last_id then []
      else [LogInfo (applied_msg (rev_id rev))]).

(** The calls of the whole loop in no-commit mode. *)
Definition no_commit_loop_events (w : World) (diffs : gmap string Diff)
    (last_id : Z) (revisions : list Revision) : list event :=
  flat_map (λ rev, match diffs !! rev_diffPHID rev with
                   | Some diff => no_commit_events w last_id rev diff
                   | None => []
                   end) revisions.

(** A computation that never clears the "always patch the full stack"
    preference. *)
Definition keeps_preference {A} (m : M A) : Prop :=
  ∀ st, always_full_stack st = true → always_full_stack (m st).2 = true.

(** A computation that does not raise [IndexError]. *)
Definition in_bounds {A} (m : M A) : Prop :=
  ∀ st, (m st).1 ≠ Raise IndexError.

(** The diff of [rev] was returned and has commit information. *)
Definition has_commit_info (diffs : gmap string Diff) (rev : Revision) : Prop :=
  ∃ diff first others,
    diffs !! rev_diffPHID rev = Some diff ∧ diff_commits diff = first :: others.

(** The calls of one successful round of the loop in commit mode. *)
Definition is_progress (e : event) : bool :=
  match e with
  | Wait _ | GetRawDiff _ | LogInfo _ | RepoApplyPatch _ true => true
  | _ => false
  end.

(** Calls that only announce or check a node. *)
Definition is_node_check (e : event) : bool :=
  match e with
  | Wait _ | CheckNode _ => true
  | _ => false
  end.

(** The attempts to commit among some calls: the commit and whether the
    repository accepted it. *)
Definition commit_attempts (es : list event) : list (Commit * bool) :=
  omap (λ e, match e with
             | RepoApplyPatch c applied => Some (c, applied)
             | _ => None
             end) es.

(** Calls other than [config.write()]. *)
Definition writes_no_config (e : event) : Prop :=
  ∀ b, e ≠ ConfigWrite b.

(** How a computation may treat the "always patch the full stack"
    preference: it leaves it alone and does not write the configuration,
    or it sets it after the prompt was answered "Always". *)
Definition respects_preference (w : World) {A} (m : M A) : Prop :=
  ∀ st, ∃ evs,
    trace (m st).2 = trace st ++ evs
    ∧ ((always_full_stack (m st).2 = always_full_stack st
        ∧ Forall writes_no_config evs)
       ∨ (always_full_stack (m st).2 = true
          ∧ ∃ question,
              Prompt question children_options ∈ evs
              ∧ prompt w question children_options = "Always")).

(** ** More concrete services and command lines *)
Module Demo2.

(** The world [w] with another state of the working tree, another
    answer to every prompt and another way to check nodes. *)
Definition with_answers (clean : bool) (answer : string)
    (node : string → string + string) (w : World) : World :=
  {| conduit_check := conduit_check w;
     check_vcs := check_vcs w;
     is_worktree_clean := clean;
     is_mercurial := is_mercurial w;
     get_revisions_by_ids := get_revisions_by_ids w;
     get_revisions_by_phids := get_revisions_by_phids w;
     get_ancestor_phids := get_ancestor_phids w;
     get_successor_phids := get_successor_phids w;
     prompt := λ _ _, answer;
     get_diffs := get_diffs w;
     check_node := node;
     get_raw_diff := get_raw_diff w;
     repo_apply_patch := repo_apply_patch w;
     phab_url := phab_url w;
     repo_path := repo_path w;
     config_apply_patch_to := config_apply_patch_to w;
     short_node := short_node w;
     prepare_body := prepare_body w |}.

(** Uncommitted changes in the working tree. *)
Definition dirty : World := with_answers false "Yes" inr Demo.friendly.

(** The user declines the children. *)
Definition declining : World := with_answers true "No" inr Demo.friendly.

(** The repository knows no node. *)
Definition unknown_nodes : World :=
  with_answers true "Yes" (λ _, inl "no such node") Demo.friendly.

Definition args_for (id : Z) (raw no_commit no_dependencies : bool)
    (apply_to : option string) : Args :=
  {| revision_id := id; raw := raw; no_commit := no_commit;
     no_parents := false; no_children := false;
     no_dependencies := no_dependencies;
     include_abandoned := false; yes := false; apply_to := apply_to |}.

(** [moz-phab patch D999] *)
Definition args_unknown : Args := args_for 999 false false false None.
(** [moz-phab patch D102 --no-dependencies] *)
Definition args_alone : Args := args_for 102 false false true None.
(** [moz-phab patch D102 --apply-to here] *)
Definition args_here : Args := args_for 102 false false false (Some "here").
(** [moz-phab patch D102 --apply-to tip] *)
Definition args_tip : Args := args_for 102 false false false (Some "tip").
(** [moz-phab patch D102 --no-commit] *)
Definition args_no_commit : Args := args_for 102 false true false None.

(** The state in which the stack of [w] and [args] is resolved. *)
Definition resolved (w : World) (args : Args) : State :=
  (resolve w args (init_state false)).2.

(** The state in which, in addition, the base is prepared. *)
Definition prepared (w : World) (args : Args) : State :=
  (select_base w args Demo.stack Demo.diffs 103 (resolved w args)).2.

End Demo2.
(** * Properties *)

(** ** Reasoning about the monad *)

Local Arguments String.append : simpl never.
Local Arguments pretty : simpl never.

Lemma bind_Ok {A B} (m : M A) (f : A → M B) st a st' :
  m st = (Ok a, st') → (m ≫= f) st = f a st'.
Proof. intros H. unfold mbind, M_mbind, M_bind. by rewrite H. Qed.

Lemma bind_Raise {A B} (m : M A) (f : A → M B) st e st' :
  m st = (Raise e, st') → (m ≫= f) st = (Raise e, st').
Proof. intros H. unfold mbind, M_mbind, M_bind. by rewrite H. Qed.

Lemma emit_record e st : emit e st = (Ok (), record e st).
Proof. reflexivity. Qed.

Lemma trace_record_all es st : trace (record_all es st) = trace st ++ es.
Proof.
  revert st. induction es as [|e es IH]; intros st; simpl.
  - by rewrite app_nil_r.
  - rewrite IH. simpl. by rewrite <- app_assoc.
Qed.

Lemma always_full_stack_record_all es st :
  always_full_stack (record_all es st) = always_full_stack st.
Proof. revert st. induction es as [|e es IH]; intros st; simpl; [done|by rewrite IH]. Qed.

Lemma commits_record_all es st : commits (record_all es st) = commits st.
Proof. revert st. induction es as [|e es IH]; intros st; simpl; [done|by rewrite IH]. Qed.

Lemma record_all_app es1 es2 st :
  record_all (es1 ++ es2) st = record_all es2 (record_all es1 st).
Proof. revert st. induction es1 as [|e es1 IH]; intros st; simpl; [done|by rewrite IH]. Qed.

(** Unfolds the monad on a goal whose control flow is decided. *)
Ltac run_monad :=
  repeat (unfold mbind, mret, M_mbind, M_mret, M_bind, M_ret, raise, pass,
          wait_message, log_info, log_warning, emit,
          get_always_full_stack, set_always_full_stack, config_write,
          call_conduit_check, call_check_vcs, call_is_worktree_clean,
          call_get_revisions_by_ids, call_get_revisions_by_phids,
          call_get_ancestor_phids, call_get_successor_phids, call_prompt,
          call_get_diffs, call_check_node, call_get_raw_diff,
          call_repo_apply_patch, dict_get, list_first, list_last;
          simpl).

(** ** Confirmation of the children (C10) *)

(** C10.  With [--yes] the prompt is never shown, nothing is persisted and
    every discovered child is kept, whatever the persisted
    [always_full_stack] preference says.  Without the flag the preference
    decides: when it is set, the children are kept silently; when it is
    not set and there are children, the user is asked exactly once,
    "No" drops the children, and "Always" sets and writes the
    preference. *)
Theorem yes_flag_precedes_preference (w : World) (args : Args)
    (children : list string) (st : State) :
  (yes args = true →
     confirm_children w args children st = (Ok children, st))
  ∧ (yes args = false → always_full_stack st = true →
     confirm_children w args children st = (Ok children, st))
  ∧ (yes args = false → always_full_stack st = false → children ≠ [] →
     let question := children_question args children in
     let answer := prompt w question children_options in
     confirm_children w args children st =
       (Ok (if String.eqb answer "No" then [] else children),
        {| trace := trace st ++ Prompt question children_options
                      :: (if String.eqb answer "Always"
                          then [ConfigWrite true] else []);
           always_full_stack := String.eqb answer "Always";
           commits := commits st |})).
Proof.
  split; [|split].
  - intros Hyes. unfold confirm_children. by rewrite Hyes.
  - intros Hyes Hfull. unfold confirm_children. rewrite Hyes. simpl.
    destruct children as [|c cs]; [done|]. run_monad. by rewrite Hfull.
  - intros Hyes Hfull Hne. unfold confirm_children. rewrite Hyes. simpl.
    destruct children as [|c cs]; [done|]. run_monad. rewrite Hfull. simpl.
    fold children_options.
    destruct (String.eqb (prompt w _ _) "Always") eqn:Halways.
    + apply String.eqb_eq in Halways. rewrite Halways. simpl.
      by rewrite <- app_assoc.
    + simpl. destruct (String.eqb (prompt w _ _) "No"); by rewrite Hfull.
Qed.

(** ** The connection check and the guard *)

Lemma preflight_run (w : World) (args : Args) (st : State) :
  ∃ res, preflight w args st = (res, record_all (preflight_events w args) st)
    ∧ (preflight_ok w args = true → res = Ok ())
    ∧ (preflight_ok w args = false → ∃ msg, res = Raise (Error msg)).
Proof.
  unfold preflight, preflight_ok, preflight_events. run_monad.
  destruct (conduit_check w), (raw args); simpl;
    [| destruct (check_vcs w) as [msg|]; simpl;
       [| destruct (is_worktree_clean w); simpl] | |];
    (eexists; split; [reflexivity|]; split; intros; by eauto).
Qed.

Lemma preflight_events_quiet (w : World) (args : Args) :
  Forall quiet (preflight_events w args).
Proof.
  unfold preflight_events.
  destruct (conduit_check w), (raw args), (check_vcs w); simpl;
    repeat constructor.
Qed.

Lemma fetch_stack_nonlinear (w : World) (args : Args) (st : State)
    (root : Revision) (more : list Revision) :
  eff_no_parents args = false →
  get_revisions_by_ids w [revision_id args] = root :: more →
  get_ancestor_phids w (rev_phid root) = None →
  fetch_stack w args st =
    (Raise (Error (nonlinear_msg args "Unable to patch the stack.")),
     record_all
       [Wait ("Fetching D" +:+ str_of_int (revision_id args) +:+ "..");
        GetRevisionsByIds [revision_id args];
        Wait ("Fetching D" +:+ str_of_int (revision_id args) +:+ "'s parents..");
        GetAncestorPhids (rev_phid root)] st).
Proof.
  intros Hpar Hroot Hwalk. unfold fetch_stack, fetch_parents. run_monad.
  rewrite Hroot, Hpar. simpl. by rewrite Hwalk.
Qed.

(** ** A branching ancestry is fatal (C3) *)

(** C3.  When parents are requested and the ancestor walk of the root
    revision reports a branching ancestry, the run ends with a fatal
    [Error] and, up to that point, has made no call that fetches diff
    content ([get_diffs], [differential.getrawdiff]) and has created no
    commit.  When the connection check and the guard pass, the error is
    the one about non-linear dependencies. *)
Theorem nonlinear_parents_fatal (w : World) (args : Args) (st : State)
    (root : Revision) (more : list Revision) :
  eff_no_parents args = false →
  get_revisions_by_ids w [revision_id args] = root :: more →
  get_ancestor_phids w (rev_phid root) = None →
  ∃ msg evs st',
    patch w args st = (Raise (Error msg), st')
    ∧ trace st' = trace st ++ evs
    ∧ Forall (λ e, is_diff_fetch e = false) evs
    ∧ commits st' = commits st
    ∧ (preflight_ok w args = true →
       msg = nonlinear_msg args "Unable to patch the stack.").
Proof.
  intros Hpar Hroot Hwalk. unfold patch, resolve.
  destruct (preflight_run w args st) as (res & Hrun & Hok & Hko).
  pose proof (preflight_events_quiet w args) as Hq.
  destruct (preflight_ok w args).
  - rewrite Hok in Hrun by done.
    pose proof (fetch_stack_nonlinear w args
                  (record_all (preflight_events w args) st) _ _ Hpar Hroot Hwalk) as Hfs.
    eexists _, _, _. split; [|split; [|split; [|split]]].
    + erewrite bind_Raise; [done|]. erewrite bind_Ok; [|done].
      erewrite bind_Raise; [done|]. exact Hfs.
    + rewrite !trace_record_all, <- app_assoc. done.
    + apply Forall_app. split.
      * eapply Forall_impl; [exact Hq|]. by intros e [? _].
      * repeat constructor.
    + by rewrite !commits_record_all.
    + done.
  - destruct Hko as [msg ->]; [done|].
    eexists msg, _, _. split; [|split; [|split; [|split]]].
    + erewrite bind_Raise; [done|]. erewrite bind_Raise; [done|]. exact Hrun.
    + by rewrite trace_record_all.
    + eapply Forall_impl; [exact Hq|]. by intros e [? _].
    + by rewrite commits_record_all.
    + congruence.
Qed.

(** ** Resolving the stack *)

Lemma fetch_parents_ok (w : World) (args : Args) (root : Revision)
    (parents : list string) (st : State) :
  walk_parents w args root = Some parents →
  fetch_parents w args root st = (Ok parents, record_all (parents_events args root) st).
Proof.
  unfold walk_parents, fetch_parents, parents_events. run_monad.
  destruct (eff_no_parents args); simpl.
  - by intros [= <-].
  - by intros ->.
Qed.

Lemma fetch_children_ok (w : World) (args : Args) (root : Revision)
    (children : list string) (st : State) :
  walk_children w args root = Some children →
  fetch_children w args root st =
    (Ok children, record_all (children_events args root) st).
Proof.
  unfold walk_children, fetch_children, children_events. run_monad.
  destruct (eff_no_children args); simpl.
  - by intros [= <-].
  - by intros ->.
Qed.

Lemma fetch_children_nonlinear (w : World) (args : Args) (root : Revision)
    (st : State) :
  eff_no_children args = false →
  get_successor_phids w (rev_phid root) (include_abandoned args) = None →
  fetch_children w args root st =
    (Ok [], record_all
              (children_events args root
               ++ [LogWarning (nonlinear_msg args "Unable to apply child revisions.")])
              st).
Proof.
  intros Hreq Hwalk. unfold fetch_children, children_events. run_monad.
  rewrite Hreq. simpl. by rewrite Hwalk.
Qed.

Lemma confirm_children_kept (w : World) (args : Args) (children : list string)
    (st : State) :
  children_confirmed w args (always_full_stack st) children = true →
  ∃ st', confirm_children w args children st = (Ok children, st').
Proof.
  unfold children_confirmed, confirm_children. run_monad.
  destruct (yes args); simpl; [eauto|].
  destruct children as [|c cs]; simpl; [eauto|].
  destruct (always_full_stack st); simpl; [eauto|].
  fold children_options.
  destruct (String.eqb (prompt w _ _) "No") eqn:Hno; simpl; [done|].
  intros _. destruct (String.eqb (prompt w _ _) "Always"); eauto.
Qed.

Lemma confirm_children_nil (w : World) (args : Args) (st : State) :
  confirm_children w args [] st = (Ok [], st).
Proof. unfold confirm_children. by destruct (yes args). Qed.

Lemma fetch_related_run (w : World) (revisions : list Revision)
    (parents children : list string) (st : State) :
  fetch_related w revisions parents children st =
    (Ok ((if nonempty parents
          then reverse (revisions ++ get_revisions_by_phids w parents)
          else revisions)
         ++ (if nonempty children then get_revisions_by_phids w children else [])),
     record_all (related_events parents ++ related_events children) st).
Proof.
  unfold fetch_related, related_events. run_monad.
  destruct (nonempty parents), (nonempty children); simpl;
    by rewrite ?app_nil_r.
Qed.

(** ** A linear chain (C1) *)

(** C1.  When the service knows the root, neither walk reports a
    branching, the children are confirmed, and the service returns the
    revision of every handle it is asked for, the stack to patch is the
    parents in the reverse of the walk's order (the walk starts at the
    root, so this is oldest first), then the root, then the children in
    the walk's order (nearest first): one revision more than the chain
    has relatives, with the root at the offset equal to the number of
    parents. *)
Theorem linear_stack_order (w : World) (args : Args) (st : State)
    (root : Revision) (parents children : list string) :
  get_revisions_by_ids w [revision_id args] = [root] →
  walk_parents w args root = Some parents →
  walk_children w args root = Some children →
  children_confirmed w args (always_full_stack st) children = true →
  rev_phid <$> get_revisions_by_phids w parents = parents →
  rev_phid <$> get_revisions_by_phids w children = children →
  ∃ revisions st',
    fetch_stack w args st = (Ok revisions, st')
    ∧ revisions = reverse (get_revisions_by_phids w parents)
                  ++ root :: get_revisions_by_phids w children
    ∧ rev_phid <$> revisions = reverse parents ++ rev_phid root :: children
    ∧ length revisions = length parents + length children + 1
    ∧ revisions !! length parents = Some root.
Proof.
  intros Hroot Hpar Hchi Hconf Hps Hcs.
  set (st1 := record_all (root_events args) st).
  set (st2 := record_all (parents_events args root) st1).
  set (st3 := record_all (children_events args root) st2).
  destruct (confirm_children_kept w args children st3) as [st4 Hc].
  { unfold st3, st2, st1. by rewrite !always_full_stack_record_all. }
  assert (Hlen : ∀ l, rev_phid <$> get_revisions_by_phids w l = l →
                      length (get_revisions_by_phids w l) = length l).
  { intros l Hl. by rewrite <- Hl at 2; rewrite length_fmap. }
  assert (Hstack :
    (if nonempty parents
     then reverse ([root] ++ get_revisions_by_phids w parents) else [root])
    ++ (if nonempty children then get_revisions_by_phids w children else [])
    = reverse (get_revisions_by_phids w parents)
      ++ root :: get_revisions_by_phids w children).
  { destruct parents as [|p ps].
    - apply fmap_nil_inv in Hps. rewrite Hps. simpl.
      destruct children as [|c cs]; [|done].
      apply fmap_nil_inv in Hcs. by rewrite Hcs.
    - cbn [nonempty]. rewrite reverse_app, <- app_assoc. simpl.
      destruct children as [|c cs]; [|done].
      apply fmap_nil_inv in Hcs. by rewrite Hcs. }
  eexists _, _. split; [|split; [|split; [|split]]].
  - unfold fetch_stack.
    erewrite bind_Ok; [|reflexivity].
    erewrite bind_Ok; [|reflexivity]. rewrite Hroot.
    erewrite bind_Ok; [|by apply fetch_parents_ok].
    erewrite bind_Ok; [|by apply fetch_children_ok].
    erewrite bind_Ok; [|exact Hc].
    rewrite fetch_related_run, Hstack. reflexivity.
  - reflexivity.
  - rewrite fmap_app, fmap_reverse, fmap_cons. by rewrite Hps, Hcs.
  - rewrite length_app, length_reverse. simpl. rewrite !Hlen by done. lia.
  - rewrite lookup_app_r; rewrite length_reverse, Hlen by done; [|lia].
    by rewrite Nat.sub_diag.
Qed.

(** ** A branching descendant chain (C4) *)

(** C4.  When children are requested and the descendant walk reports a
    branching, the resolution does not fail: it logs the warning, asks
    nothing about children, fetches no child revision, and the stack to
    patch consists of the resolved parents and the root only. *)
Theorem nonlinear_children_dropped (w : World) (args : Args) (st : State)
    (root : Revision) (more : list Revision) (parents : list string) :
  eff_no_children args = false →
  get_revisions_by_ids w [revision_id args] = root :: more →
  walk_parents w args root = Some parents →
  get_successor_phids w (rev_phid root) (include_abandoned args) = None →
  fetch_stack w args st =
    (Ok (if nonempty parents
         then reverse ((root :: more) ++ get_revisions_by_phids w parents)
         else root :: more),
     record_all
       (root_events args
        ++ parents_events args root
        ++ children_events args root
        ++ [LogWarning (nonlinear_msg args "Unable to apply child revisions.")]
        ++ related_events parents) st).
Proof.
  intros Hreq Hroot Hpar Hwalk. unfold fetch_stack.
  erewrite bind_Ok; [|reflexivity].
  erewrite bind_Ok; [|reflexivity]. rewrite Hroot.
  erewrite bind_Ok; [|by apply fetch_parents_ok].
  erewrite bind_Ok; [|by apply fetch_children_nonlinear].
  erewrite bind_Ok; [|by apply confirm_children_nil].
  rewrite fetch_related_run. simpl. rewrite !app_nil_r.
  f_equal. rewrite !record_all_app. reflexivity.
Qed.

(** ** Base selection (C5) *)

Lemma first_base_None (refs : list Ref) :
  first_base refs = None ↔ ∀ ref, ref ∈ refs → ref_type ref ≠ "base".
Proof.
  induction refs as [|r refs IH]; simpl.
  - split; [|done]. intros _ ref Hin. by apply elem_of_nil in Hin.
  - destruct (String.eqb (ref_type r) "base") eqn:Hr.
    + apply String.eqb_eq in Hr. split; [done|].
      intros H. exfalso. apply (H r); [left|done].
    + apply String.eqb_neq in Hr. rewrite IH. split.
      * intros H ref [->|Hin]%elem_of_cons; auto.
      * intros H ref Hin. apply H. by right.
Qed.

Lemma first_base_Some (pre post : list Ref) (ref : Ref) :
  (∀ r, r ∈ pre → ref_type r ≠ "base") →
  ref_type ref = "base" →
  first_base (pre ++ ref :: post) = Some (ref_identifier ref).
Proof.
  intros Hpre Href. induction pre as [|r pre IH]; simpl.
  - by rewrite Href.
  - destruct (String.eqb (ref_type r) "base") eqn:Hr.
    + apply String.eqb_eq in Hr. exfalso. apply (Hpre r); [left|done].
    + apply IH. intros r' Hin. apply Hpre. by right.
Qed.

(** C5.  In "base" mode, once the stack and its diffs are resolved:
    when the reference list of the first revision's diff has no entry of
    type "base" (or the diff has no reference list), the run ends with
    the fatal "Base commit not found" error before anything is asked of
    the repository; and when the list has such an entry, [get_base_ref]
    returns the identifier of the first one, unchanged, and a non-empty
    identifier is the node chosen as the base. *)
Theorem base_mode_selection (w : World) (args : Args) (st st1 : State)
    (revisions : list Revision) (diffs : gmap string Diff)
    (first : Revision) (diff : Diff) :
  raw args = false →
  eff_apply_to w args = "base" →
  resolve w args st = (Ok (revisions, diffs), st1) →
  head revisions = Some first →
  diffs !! rev_diffPHID first = Some diff →
  ((∀ ref, ref ∈ default [] (diff_refs diff) → ref_type ref ≠ "base") →
     get_base_ref diff = None
     ∧ patch w args st = (Raise (Error no_base_msg), st1))
  ∧ (∀ pre ref post,
       diff_refs diff = Some (pre ++ ref :: post) →
       (∀ r, r ∈ pre → ref_type r ≠ "base") →
       ref_type ref = "base" →
       get_base_ref diff = Some (ref_identifier ref)
       ∧ (ref_identifier ref ≠ "" →
          choose_base "base" revisions diffs st1
          = (Ok (Some (ref_identifier ref)), st1))).
Proof.
  intros Hraw Hmode Hres Hfirst Hdiff. split.
  - intros Hnone. apply first_base_None in Hnone. split; [exact Hnone|].
    unfold patch. erewrite bind_Ok; [|exact Hres]. simpl.
    destruct (last revisions) as [target|] eqn:Hlast.
    2:{ apply last_None in Hlast. by subst. }
    unfold list_last. rewrite Hlast.
    erewrite bind_Ok; [|reflexivity].
    erewrite bind_Raise; [done|].
    unfold select_base. rewrite Hraw, Hmode. simpl.
    erewrite bind_Raise; [done|].
    unfold choose_base. simpl. unfold list_first. rewrite Hfirst.
    erewrite bind_Ok; [|reflexivity].
    unfold dict_get. rewrite Hdiff.
    erewrite bind_Ok; [|reflexivity].
    unfold get_base_ref in *. by rewrite Hnone.
  - intros pre ref post Hrefs Hpre Href.
    assert (Hget : get_base_ref diff = Some (ref_identifier ref)).
    { unfold get_base_ref. rewrite Hrefs. by apply first_base_Some. }
    split; [exact Hget|]. intros Hne.
    unfold choose_base. simpl. unfold list_first. rewrite Hfirst.
    erewrite bind_Ok; [|reflexivity].
    unfold dict_get. rewrite Hdiff.
    erewrite bind_Ok; [|reflexivity].
    rewrite Hget. apply String.eqb_neq in Hne. by rewrite Hne.
Qed.

(** ** Commit information (C7) *)

Lemma resolve_split (w : World) (args : Args) (st : State) :
  resolve w args st =
    (revisions ← resolve_stack w args;
     diffs ← pull_diffs w args revisions;
     mret (revisions, diffs)) st.
Proof.
  unfold resolve, resolve_stack, mbind, M_mbind, M_bind.
  destruct (preflight w args st) as [[[]|e] st1]; done.
Qed.

Lemma check_commit_info_state (diffs : gmap string Diff)
    (revisions : list Revision) (st : State) :
  (check_commit_info diffs revisions st).2 = st.
Proof.
  induction revisions as [|rev revisions IH]; simpl; [done|].
  unfold mbind, M_mbind, M_bind, dict_get.
  destruct (diffs !! rev_diffPHID rev) as [diff|]; simpl; [|done].
  destruct (diff_commits diff); simpl; [done|]. exact IH.
Qed.

Lemma check_commit_info_fails (diffs : gmap string Diff)
    (revisions : list Revision) (rev : Revision) (diff : Diff) (st : State) :
  rev ∈ revisions →
  diffs !! rev_diffPHID rev = Some diff →
  diff_commits diff = [] →
  ∃ e, check_commit_info diffs revisions st = (Raise e, st)
       ∧ blames diffs revisions e.
Proof.
  intros Hin Hdiff Hnone.
  induction revisions as [|r revisions IH]; [by apply elem_of_nil in Hin|].
  simpl. unfold mbind, M_mbind, M_bind, dict_get.
  destruct (diffs !! rev_diffPHID r) as [d|] eqn:Hd; simpl.
  - destruct (diff_commits d) as [|a l] eqn:Hc; simpl.
    + eexists. split; [done|]. exists r. split; [left|]. left. eauto.
    + apply elem_of_cons in Hin as [->|Hin]; [congruence|].
      destruct (IH Hin) as (e & Hrun & r' & Hr' & Hwhy).
      exists e. split; [done|]. exists r'. split; [by right|done].
  - eexists. split; [done|]. exists r. split; [left|]. right. eauto.
Qed.

Lemma pull_diffs_skip (w : World) (args : Args) (revisions : list Revision)
    (st : State) :
  negb (no_commit args) && negb (raw args) = false →
  pull_diffs w args revisions st =
    (Ok (get_diffs w (rev_diffPHID <$> revisions)),
     record_all (pull_events args revisions) st).
Proof.
  intros Hmode. unfold pull_diffs, pull_events. rewrite Hmode.
  run_monad. by destruct (raw args).
Qed.

Lemma pull_diffs_fails (w : World) (args : Args) (revisions : list Revision)
    (rev : Revision) (diff : Diff) (st : State) :
  raw args = false → no_commit args = false →
  rev ∈ revisions →
  get_diffs w (rev_diffPHID <$> revisions) !! rev_diffPHID rev = Some diff →
  diff_commits diff = [] →
  ∃ e, pull_diffs w args revisions st =
         (Raise e, record_all (pull_events args revisions) st)
       ∧ blames (get_diffs w (rev_diffPHID <$> revisions)) revisions e.
Proof.
  intros Hraw Hnc Hin Hdiff Hnone.
  destruct (check_commit_info_fails _ _ _ _
              (record_all (pull_events args revisions) st) Hin Hdiff Hnone)
    as (e & Hrun & Hwhy).
  exists e. split; [|done].
  unfold pull_diffs, pull_events in *. rewrite Hraw, Hnc in *. simpl in *.
  erewrite bind_Ok; [|reflexivity].
  erewrite bind_Ok; [|reflexivity].
  erewrite bind_Ok; [|reflexivity].
  erewrite bind_Raise; [done|]. exact Hrun.
Qed.

(** In raw and no-commit mode nothing reads the commit information. *)

Lemma dict_get_set_commits (f : Diff → list Author) (diffs : gmap string Diff)
    {A} (k : string) (body : Diff → M A) (st : State) :
  (∀ d, body (set_commits f d) = body d) →
  (dict_get (set_commits f <$> diffs) k ≫= body) st
  = (dict_get diffs k ≫= body) st.
Proof.
  intros Hbody. unfold dict_get, mbind, M_mbind, M_bind. rewrite lookup_fmap.
  destruct (diffs !! k) as [d|]; simpl; [|done]. by rewrite Hbody.
Qed.

Lemma choose_base_set_commits (f : Diff → list Author) (mode : string)
    (revisions : list Revision) (diffs : gmap string Diff) (st : State) :
  choose_base mode revisions (set_commits f <$> diffs) st
  = choose_base mode revisions diffs st.
Proof.
  unfold choose_base. destruct (String.eqb mode "base"); [|done].
  unfold mbind at 1 3, M_mbind, M_bind.
  destruct (list_first revisions st) as [[first|e] st1]; [|done].
  by apply dict_get_set_commits.
Qed.

Lemma select_base_set_commits (f : Diff → list Author) (w : World) (args : Args)
    (revisions : list Revision) (diffs : gmap string Diff) (target : Z)
    (st : State) :
  select_base (with_commits f w) args revisions (set_commits f <$> diffs) target st
  = select_base w args revisions diffs target st.
Proof.
  unfold select_base. destruct (raw args); simpl; [done|].
  change (eff_apply_to (with_commits f w) args) with (eff_apply_to w args).
  unfold mbind at 1 3, M_mbind, M_bind.
  rewrite choose_base_set_commits.
  destruct (choose_base _ _ _ _) as [[base_node|e] st1]; done.
Qed.

Lemma apply_one_set_commits (f : Diff → list Author) (w : World) (args : Args)
    (diffs : gmap string Diff) (last_id : Z) (parent : option Z)
    (rev : Revision) (st : State) :
  negb (no_commit args) && negb (raw args) = false →
  apply_one (with_commits f w) args (set_commits f <$> diffs) last_id parent rev st
  = apply_one w args diffs last_id parent rev st.
Proof.
  intros Hmode. unfold apply_one. apply dict_get_set_commits. intros d.
  destruct (no_commit args); [reflexivity|].
  destruct (raw args); [reflexivity|discriminate Hmode].
Qed.

Lemma apply_loop_set_commits (f : Diff → list Author) (w : World) (args : Args)
    (diffs : gmap string Diff) (last_id : Z) (parent : option Z)
    (revisions : list Revision) (st : State) :
  negb (no_commit args) && negb (raw args) = false →
  apply_loop (with_commits f w) args (set_commits f <$> diffs) last_id parent
    revisions st
  = apply_loop w args diffs last_id parent revisions st.
Proof.
  intros Hmode. revert parent st.
  induction revisions as [|rev revisions IH]; intros parent st; simpl; [done|].
  unfold mbind, M_mbind, M_bind. rewrite apply_one_set_commits by done.
  destruct (apply_one w args diffs last_id parent rev st) as [[[]|e] st1];
    [apply IH|done].
Qed.

Lemma bind_case {A B} (m : M A) (f : A → M B) (st : State) :
  (m ≫= f) st =
    match m st with
    | (Ok a, st') => f a st'
    | (Raise e, st') => (Raise e, st')
    end.
Proof. reflexivity. Qed.

Lemma bind_ext {A B} (m1 m2 : M A) (f1 f2 : A → M B) (st : State) :
  m1 st = m2 st →
  (∀ a st', f1 a st' = f2 a st') →
  (m1 ≫= f1) st = (m2 ≫= f2) st.
Proof.
  intros Hm Hf. unfold mbind, M_mbind, M_bind. rewrite Hm.
  destruct (m2 st) as [[a|e] st']; [apply Hf|done].
Qed.

Lemma resolve_set_commits (f : Diff → list Author) (w : World) (args : Args)
    (st : State) :
  negb (no_commit args) && negb (raw args) = false →
  resolve (with_commits f w) args st =
    match resolve w args st with
    | (Ok (revisions, diffs), st') => (Ok (revisions, set_commits f <$> diffs), st')
    | (Raise e, st') => (Raise e, st')
    end.
Proof.
  intros Hmode. rewrite !resolve_split.
  change (resolve_stack (with_commits f w) args) with (resolve_stack w args).
  unfold mbind, M_mbind, M_bind.
  destruct (resolve_stack w args st) as [[revisions|e] st1]; [|done].
  by rewrite !pull_diffs_skip.
Qed.

Lemma patch_set_commits (f : Diff → list Author) (w : World) (args : Args)
    (st : State) :
  negb (no_commit args) && negb (raw args) = false →
  patch (with_commits f w) args st = patch w args st.
Proof.
  intros Hmode. unfold patch.
  rewrite (bind_case (resolve (with_commits f w) args)).
  rewrite (bind_case (resolve w args)).
  rewrite resolve_set_commits by done.
  destruct (resolve w args st) as [[[revisions diffs]|e] st1]; [|done].
  apply bind_ext; [done|]. intros target st2.
  apply bind_ext; [apply select_base_set_commits|]. intros [] st3.
  unfold apply_stack.
  apply bind_ext; [by apply apply_loop_set_commits|done].
Qed.

(** C7.  Take a resolved stack in which some revision's diff has no
    commit information.  In commit mode (neither [--raw] nor
    [--no-commit]) the run ends right after the diffs are pulled, with
    an exception about the first revision whose diff is unusable: the
    fatal "diff without commit information" [Error] (or the [KeyError] of
    a diff the service did not return).  In raw or no-commit mode the
    check is skipped: the diffs are accepted as they are, and the whole
    run is the same whatever commit information the diffs carry. *)
Theorem commit_info_required (w : World) (args : Args) (st st1 : State)
    (revisions : list Revision) (rev : Revision) (diff : Diff) :
  resolve_stack w args st = (Ok revisions, st1) →
  rev ∈ revisions →
  get_diffs w (rev_diffPHID <$> revisions) !! rev_diffPHID rev = Some diff →
  diff_commits diff = [] →
  (raw args = false → no_commit args = false →
     ∃ e, patch w args st
          = (Raise e, record_all (pull_events args revisions) st1)
          ∧ blames (get_diffs w (rev_diffPHID <$> revisions)) revisions e)
  ∧ (raw args = true ∨ no_commit args = true →
     resolve w args st
     = (Ok (revisions, get_diffs w (rev_diffPHID <$> revisions)),
        record_all (pull_events args revisions) st1)
     ∧ ∀ f, patch (with_commits f w) args st = patch w args st).
Proof.
  intros Hstack Hin Hdiff Hnone. split.
  - intros Hraw Hnc.
    destruct (pull_diffs_fails w args revisions rev diff st1 Hraw Hnc Hin Hdiff Hnone)
      as (e & Hrun & Hwhy).
    exists e. split; [|done].
    unfold patch. erewrite bind_Raise; [done|].
    rewrite resolve_split. erewrite bind_Ok; [|exact Hstack].
    erewrite bind_Raise; [done|]. exact Hrun.
  - intros Hmode.
    assert (negb (no_commit args) && negb (raw args) = false) as Hskip.
    { destruct Hmode as [-> | ->]; [by rewrite andb_false_r|done]. }
    split.
    + rewrite resolve_split. erewrite bind_Ok; [|exact Hstack].
      erewrite bind_Ok; [|by apply pull_diffs_skip]. done.
    + intros f. by apply patch_set_commits.
Qed.

(** ** One round of the loop in commit mode *)

Lemma apply_one_commit_ok (w : World) (args : Args) (diffs : gmap string Diff)
    (last_id : Z) (parent : option Z) (rev : Revision) (diff : Diff)
    (first : Author) (others : list Author) (st : State) :
  raw args = false → no_commit args = false →
  diffs !! rev_diffPHID rev = Some diff →
  diff_commits diff = first :: others →
  let c := commit_for w parent rev diff first in
  repo_apply_patch w (commits st) c = true →
  apply_one w args diffs last_id parent rev st =
    (Ok (),
     {| trace := trace st ++ commit_events rev diff c true
                 ++ (if Z.eqb (rev_id rev) last_id then []
                     else [LogInfo (applied_msg (rev_id rev))]);
        always_full_stack := always_full_stack st;
        commits := commits st ++ [c] |}).
Proof.
  intros Hraw Hnc Hdiff Hfirst c Happlied.
  unfold apply_one. run_monad. rewrite Hdiff, Hnc, Hraw, Hfirst. simpl.
  fold (commit_for w parent rev diff first). fold c. rewrite Happlied. simpl.
  destruct (Z.eqb (rev_id rev) last_id); simpl.
  - by rewrite <- !app_assoc.
  - by rewrite <- !app_assoc.
Qed.

Lemma apply_one_commit_fail (w : World) (args : Args) (diffs : gmap string Diff)
    (last_id : Z) (parent : option Z) (rev : Revision) (diff : Diff)
    (first : Author) (others : list Author) (st : State) :
  raw args = false → no_commit args = false →
  diffs !! rev_diffPHID rev = Some diff →
  diff_commits diff = first :: others →
  let c := commit_for w parent rev diff first in
  repo_apply_patch w (commits st) c = false →
  apply_one w args diffs last_id parent rev st =
    (Raise (Error "Patch failed to apply"),
     {| trace := trace st ++ commit_events rev diff c false;
        always_full_stack := always_full_stack st;
        commits := commits st |}).
Proof.
  intros Hraw Hnc Hdiff Hfirst c Happlied.
  unfold apply_one. run_monad. rewrite Hdiff, Hnc, Hraw, Hfirst. simpl.
  fold (commit_for w parent rev diff first). fold c. rewrite Happlied. simpl.
  by rewrite <- !app_assoc.
Qed.

(** Whatever happens in a round of commit mode, it creates at most one
    commit, and the body of that commit links to [parent]. *)
Lemma apply_one_commit_mode (w : World) (args : Args) (diffs : gmap string Diff)
    (last_id : Z) (parent : option Z) (rev : Revision) (st : State) :
  raw args = false → no_commit args = false →
  (∃ c, (apply_one w args diffs last_id parent rev st).1 = Ok ()
        ∧ commits (apply_one w args diffs last_id parent rev st).2 = commits st ++ [c]
        ∧ commit_body c = prepare_body w (rev_title rev) (rev_summary rev)
                            (rev_id rev) (phab_url w) parent)
  ∨ (∃ e, (apply_one w args diffs last_id parent rev st).1 = Raise e
          ∧ commits (apply_one w args diffs last_id parent rev st).2 = commits st).
Proof.
  intros Hraw Hnc.
  destruct (diffs !! rev_diffPHID rev) as [diff|] eqn:Hdiff.
  2:{ right. unfold apply_one, dict_get. rewrite Hdiff. eexists. by split. }
  destruct (diff_commits diff) as [|first others] eqn:Hfirst.
  { right. unfold apply_one. run_monad. rewrite Hdiff, Hnc, Hraw, Hfirst. simpl.
    eexists. by split. }
  destruct (repo_apply_patch w (commits st) (commit_for w parent rev diff first))
    eqn:Happlied.
  - left. rewrite (apply_one_commit_ok _ _ _ _ _ _ _ _ _ _ Hraw Hnc Hdiff Hfirst Happlied).
    eexists. by split.
  - right. rewrite (apply_one_commit_fail _ _ _ _ _ _ _ _ _ _ Hraw Hnc Hdiff Hfirst Happlied).
    eexists. by split.
Qed.

(** ** The "depends on" link (C9) *)

Lemma apply_loop_bodies (w : World) (args : Args) (diffs : gmap string Diff)
    (last_id : Z) (revisions : list Revision) :
  raw args = false → no_commit args = false →
  ∀ (parent : option Z) (st : State),
  ∃ created,
    commits (apply_loop w args diffs last_id parent revisions st).2
    = commits st ++ created
    ∧ ((apply_loop w args diffs last_id parent revisions st).1 = Ok () →
       length created = length revisions)
    ∧ ∀ i c, created !! i = Some c →
        ∃ rev, revisions !! i = Some rev
          ∧ commit_body c =
              prepare_body w (rev_title rev) (rev_summary rev) (rev_id rev)
                (phab_url w)
                (match i with 0 => parent | S j => rev_id <$> revisions !! j end).
Proof.
  intros Hraw Hnc. induction revisions as [|rev revisions IH]; intros parent st.
  - exists []. simpl. rewrite app_nil_r. split; [done|]. split; [done|].
    intros i c Hi. by rewrite lookup_nil in Hi.
  - simpl. rewrite bind_case.
    destruct (apply_one_commit_mode w args diffs last_id parent rev st Hraw Hnc)
      as [(c & Hres & Hcs & Hbody)|(e & Hres & Hcs)];
      destruct (apply_one w args diffs last_id parent rev st) as [res st1];
      simpl in Hres, Hcs; subst res.
    + destruct (IH (Some (rev_id rev)) st1) as (created & Hcreated & Hlen & Hall).
      exists (c :: created). split; [|split].
      * rewrite Hcreated, Hcs, <- app_assoc. done.
      * intros Hok. simpl. by rewrite Hlen.
      * intros [|i] c' Hi; simpl in Hi.
        -- injection Hi as <-. exists rev. by split.
        -- destruct (Hall i c' Hi) as (rev' & Hrev' & Hbody').
           exists rev'. split; [done|]. rewrite Hbody'. by destruct i.
    + exists []. simpl. rewrite app_nil_r. split; [done|]. split; [done|].
      intros i c Hi. by rewrite lookup_nil in Hi.
Qed.

(** C9.  In commit mode, the commits the loop creates are, in order, the
    commits of a prefix of the stack (of the whole stack when the loop
    succeeds), and the body of the commit at position [i] is composed
    with the id of the revision at position [i-1] as its "depends on"
    link, and with no link at position 0. *)
Theorem depends_on_previous (w : World) (args : Args) (diffs : gmap string Diff)
    (last_id : Z) (revisions : list Revision) (st : State) :
  raw args = false → no_commit args = false →
  ∃ created,
    commits (apply_loop w args diffs last_id None revisions st).2
    = commits st ++ created
    ∧ ((apply_loop w args diffs last_id None revisions st).1 = Ok () →
       length created = length revisions)
    ∧ ∀ i c, created !! i = Some c →
        ∃ rev, revisions !! i = Some rev
          ∧ commit_body c =
              prepare_body w (rev_title rev) (rev_summary rev) (rev_id rev)
                (phab_url w) (depends_on revisions i).
Proof.
  intros Hraw Hnc. by apply apply_loop_bodies.
Qed.

(** ** Computations that leave the history alone *)

Lemma keeps_ret {A} (a : A) : keeps_commits (mret a : M A).
Proof. by intros st. Qed.

Lemma keeps_pass : keeps_commits pass.
Proof. by intros st. Qed.

Lemma keeps_raise {A} (e : exn) : keeps_commits (raise e : M A).
Proof. by intros st. Qed.

Lemma keeps_emit (e : event) : keeps_commits (emit e).
Proof. by intros st. Qed.

Lemma keeps_bind {A B} (m : M A) (f : A → M B) :
  keeps_commits m → (∀ a, keeps_commits (f a)) → keeps_commits (m ≫= f).
Proof.
  intros Hm Hf st. rewrite bind_case. specialize (Hm st).
  destruct (m st) as [[a|e] st1]; simpl in *; [|done].
  by rewrite Hf.
Qed.

Create HintDb keeps discriminated.

Ltac keeps_step :=
  first
    [ solve [auto 1 with keeps nocore]
    | apply keeps_bind; [|intros ?]
    | apply keeps_ret | apply keeps_pass | apply keeps_raise | apply keeps_emit
    | match goal with
      | |- keeps_commits (if ?b then _ else _) => destruct b
      | |- keeps_commits (match ?x with _ => _ end) => destruct x
      end ].

Ltac keeps :=
  unfold wait_message, log_info, log_warning, call_conduit_check, call_check_vcs,
    call_is_worktree_clean, call_get_revisions_by_ids,
    call_get_revisions_by_phids, call_get_ancestor_phids,
    call_get_successor_phids, call_prompt, call_get_diffs, call_check_node,
    call_get_raw_diff, dict_get, list_first, list_last;
  repeat keeps_step.

Lemma keeps_preflight (w : World) (args : Args) : keeps_commits (preflight w args).
Proof. unfold preflight. keeps. Qed.
#[local] Hint Resolve keeps_preflight : keeps.

Lemma keeps_confirm_children (w : World) (args : Args) (children : list string) :
  keeps_commits (confirm_children w args children).
Proof.
  unfold confirm_children. keeps; try by intros st.
Qed.
#[local] Hint Resolve keeps_confirm_children : keeps.

Lemma keeps_fetch_stack (w : World) (args : Args) : keeps_commits (fetch_stack w args).
Proof.
  unfold fetch_stack, fetch_parents, fetch_children, fetch_related. keeps.
Qed.
#[local] Hint Resolve keeps_fetch_stack : keeps.

Lemma keeps_check_commit_info (diffs : gmap string Diff) (revisions : list Revision) :
  keeps_commits (check_commit_info diffs revisions).
Proof. intros st. by rewrite check_commit_info_state. Qed.
#[local] Hint Resolve keeps_check_commit_info : keeps.

Lemma keeps_pull_diffs (w : World) (args : Args) (revisions : list Revision) :
  keeps_commits (pull_diffs w args revisions).
Proof. unfold pull_diffs. keeps. Qed.
#[local] Hint Resolve keeps_pull_diffs : keeps.

Lemma keeps_resolve (w : World) (args : Args) : keeps_commits (resolve w args).
Proof.
  unfold resolve. keeps.
Qed.
#[local] Hint Resolve keeps_resolve : keeps.

Lemma keeps_select_base (w : World) (args : Args) (revisions : list Revision)
    (diffs : gmap string Diff) (target : Z) :
  keeps_commits (select_base w args revisions diffs target).
Proof. unfold select_base, choose_base, validate_base. keeps. Qed.
#[local] Hint Resolve keeps_select_base : keeps.

(** ** The second of three patches fails (C2) *)

(** C2, as the code has it.  In commit mode, for a resolved stack of
    three revisions whose base is prepared, when the repository applies
    the first revision's patch and rejects the second's: the run ends
    with the fatal error "Patch failed to apply" (a fixed text that names
    no revision), the history has grown by exactly the commit of the
    first revision, and the calls made by the loop end with the rejected
    attempt for the second revision, announced by the progress message
    "Applying D<second id>.."; nothing is downloaded or applied for the
    third. *)
Theorem second_patch_fails (w : World) (args : Args) (st st1 st2 : State)
    (r1 r2 r3 : Revision) (diffs : gmap string Diff) (d1 d2 : Diff)
    (a1 a2 : Author) (l1 l2 : list Author) :
  raw args = false → no_commit args = false →
  resolve w args st = (Ok ([r1; r2; r3], diffs), st1) →
  select_base w args [r1; r2; r3] diffs (rev_id r3) st1 = (Ok (), st2) →
  diffs !! rev_diffPHID r1 = Some d1 → diff_commits d1 = a1 :: l1 →
  diffs !! rev_diffPHID r2 = Some d2 → diff_commits d2 = a2 :: l2 →
  let c1 := commit_for w None r1 d1 a1 in
  let c2 := commit_for w (Some (rev_id r1)) r2 d2 a2 in
  repo_apply_patch w (commits st) c1 = true →
  repo_apply_patch w (commits st ++ [c1]) c2 = false →
  ∃ st',
    patch w args st = (Raise (Error "Patch failed to apply"), st')
    ∧ commits st' = commits st ++ [c1]
    ∧ trace st' =
        trace st2
        ++ commit_events r1 d1 c1 true
        ++ (if Z.eqb (rev_id r1) (rev_id r3) then []
            else [LogInfo (applied_msg (rev_id r1))])
        ++ commit_events r2 d2 c2 false.
Proof.
  intros Hraw Hnc Hres Hbase Hd1 Ha1 Hd2 Ha2 c1 c2 Hok Hko.
  assert (commits st2 = commits st) as Hhist.
  { pose proof (keeps_select_base w args [r1; r2; r3] diffs (rev_id r3) st1) as H2.
    pose proof (keeps_resolve w args st) as H1.
    rewrite Hbase in H2. rewrite Hres in H1. simpl in *. congruence. }
  rewrite <- Hhist in Hok, Hko.
  eexists. split; [|split].
  - unfold patch. erewrite bind_Ok; [|exact Hres]. simpl.
    erewrite bind_Ok; [|reflexivity].
    erewrite bind_Ok; [|exact Hbase].
    unfold apply_stack. erewrite bind_Raise; [done|].
    simpl.
    erewrite bind_Ok; [|by eapply apply_one_commit_ok].
    erewrite bind_Raise; [done|].
    by eapply apply_one_commit_fail.
  - simpl. by rewrite Hhist.
  - simpl. by rewrite <- !app_assoc.
Qed.

(** ** The revision-id parser (C8) *)
Module RevisionIdFacts.
Import RevisionId RevisionIdSpec.

Section Facts.
Variable nd_value : N → option N.
Variable max_str_digits : N.
Abbreviation is_digit := (is_digit nd_value).

Lemma span_app (cls : N → bool) (s : pystr) :
  (span cls s).1 ++ (span cls s).2 = s.
Proof.
  induction s as [|c s IH]; simpl; [done|].
  destruct (cls c); [|done]. destruct (span cls s) as [run rest].
  simpl in *. by rewrite IH.
Qed.

Lemma span_run (cls : N → bool) (s : pystr) :
  Forall (λ c, cls c = true) (span cls s).1.
Proof.
  induction s as [|c s IH]; simpl; [constructor|].
  destruct (cls c) eqn:Hc; [|constructor].
  destruct (span cls s) as [run rest]. simpl in *. by constructor.
Qed.

Lemma span_rest (cls : N → bool) (s : pystr) :
  match (span cls s).2 with
  | c :: _ => cls c = false
  | [] => True
  end.
Proof.
  induction s as [|c s IH]; simpl; [done|].
  destruct (cls c) eqn:Hc; [|done].
  by destruct (span cls s) as [run rest].
Qed.

(** The run found by [span] is the only split of [s] into a run of
    [cls] and a rest that does not start in [cls]. *)
Lemma span_unique (cls : N → bool) (run rest : pystr) :
  Forall (λ c, cls c = true) run →
  match rest with c :: _ => cls c = false | [] => True end →
  span cls (run ++ rest) = (run, rest).
Proof.
  intros Hrun Hrest. induction Hrun as [|c run Hc _ IH]; simpl.
  - destruct rest as [|c rest]; [done|]. simpl. by rewrite Hrest.
  - cbn beta in Hc. by rewrite Hc, IH.
Qed.

(** When the rest of the pattern cannot match right before a
    character of [cls], or when it always matches, giving back
    characters never helps: [[..]+] takes the longest run. *)
Lemma plus_loop_span (cls : N → bool) (k : pystr → pystr → option pystr)
    (consumed s : pystr) :
  (∀ text c rest, cls c = true → k text (c :: rest) = None)
  ∨ (∀ text rest, is_Some (k text rest)) →
  plus_loop cls k consumed s =
    match span cls s with
    | ([], _) => None
    | (run, rest) => k (consumed ++ run) rest
    end.
Proof.
  intros Hk. revert consumed.
  induction s as [|c s IH]; intros consumed; [done|].
  cbn [plus_loop span]. destruct (cls c) eqn:Hc; [|done].
  rewrite IH.
  pose proof (span_run cls s) as Hrun.
  pose proof (span_app cls s) as Happ.
  destruct (span cls s) as [[|c' run] rest]; cbn [fst snd] in *.
  - simpl in Happ. subst rest. done.
  - rewrite <- app_assoc. cbn [app].
    destruct (k (consumed ++ c :: c' :: run) rest) eqn:Hlong; [done|].
    destruct Hk as [Hk|Hk].
    + rewrite <- Happ. cbn [app]. apply Hk. by inversion Hrun.
    + destruct (Hk (consumed ++ c :: c' :: run) rest) as [g Hg]. congruence.
Qed.

Lemma search_from_anchored (p : list atom) (s : pystr) :
  search_from (Bol :: p) false s = None.
Proof. induction s as [|c s IH]; simpl; [done|exact IH]. Qed.

(** A pattern that starts with [^] is only tried at the start. *)
Lemma search_anchored (p : list atom) (s : pystr) :
  search (Bol :: p) s = match_here p true s [].
Proof.
  unfold search. destruct s as [|c s]; simpl.
  - by destruct (match_here p true [] []).
  - destruct (match_here p true (c :: s) []); [done|].
    apply search_from_anchored.
Qed.

Lemma ascii_not_digit (c : N) :
  (c <? 48)%N || ((57 <? c) && (c <? 128))%N = true → is_digit c = false.
Proof.
  intros Hc. unfold RevisionId.is_digit, digit_value.
  assert ((c < 48 ∨ 57 < c)%N ∧ (c < 128)%N) as [Hout Hascii].
  { apply orb_true_iff in Hc as [Hc|Hc].
    - apply N.ltb_lt in Hc. lia.
    - apply andb_true_iff in Hc as [H1 H2].
      apply N.ltb_lt in H1, H2. lia. }
  apply N.ltb_lt in Hascii. rewrite Hascii.
  destruct (N.leb_spec 48 c), (N.leb_spec c 57); simpl; try done.
  exfalso. lia.
Qed.

Lemma digits_then_end_spec (s g : pystr) :
  digits_then_end nd_value s = Some g
  ↔ digits nd_value g ∧ ∃ nl, s = g ++ nl ∧ (nl = [] ∨ nl = [10%N]).
Proof.
  unfold digits_then_end. rewrite plus_loop_span.
  2:{ left. intros text c rest Hc. simpl.
      destruct rest; [|done]. destruct (N.eqb_spec c 10) as [->|]; [|done].
      by rewrite ascii_not_digit in Hc. }
  pose proof (span_run is_digit s) as Hrun.
  pose proof (span_app is_digit s) as Happ.
  pose proof (span_rest is_digit s) as Hrest.
  split.
  - destruct (span is_digit s) as [[|c run] rest]; [done|].
    cbn [fst snd app] in *. intros Hk.
    assert (g = c :: run ∧ (rest = [] ∨ rest = [10%N])) as [-> Hnl].
    { simpl in Hk. destruct rest as [|c1 [|c2 rest]]; [| |done].
      - injection Hk as <-. auto.
      - destruct (N.eqb_spec c1 10) as [->|]; [|done].
        injection Hk as <-. auto. }
    split; [done|]. exists rest. by rewrite <- Happ.
  - intros [[Hne Hall] (nl & -> & Hnl)].
    rewrite span_unique; [| done |].
    + destruct g as [|c g]; [done|]. simpl.
      destruct Hnl as [-> | ->]; done.
    + destruct Hnl as [-> | ->]; [done|]. by apply ascii_not_digit.
Qed.

Lemma number_match_unfold (s : pystr) :
  match_here (number_pattern nd_value) true s [] =
    match s with
    | c :: s' =>
        if (c =? chr "D")%N then
          match digits_then_end nd_value s' with
          | Some g => Some g
          | None => digits_then_end nd_value s
          end
        else digits_then_end nd_value s
    | [] => digits_then_end nd_value s
    end.
Proof. by destruct s. Qed.

Lemma digits_head (g : pystr) :
  digits nd_value g → ∃ c g', g = c :: g' ∧ is_digit c = true.
Proof.
  intros [Hne Hall]. destruct g as [|c g']; [done|].
  exists c, g'. split; [done|]. by inversion Hall.
Qed.

Lemma number_search (s g : pystr) :
  search (number_pattern nd_value) s = Some g
  ↔ number_shape nd_value s g.
Proof.
  unfold number_pattern at 1. rewrite search_anchored.
  change (match_here _ true s []) with
    (match_here (number_pattern nd_value) true s []).
  rewrite number_match_unfold. unfold number_shape. split.
  - intros Hm.
    assert (digits_then_end nd_value s = Some g
            ∨ ∃ s', s = chr "D" :: s' ∧ digits_then_end nd_value s' = Some g)
      as [Hd|(s' & -> & Hd)].
    { destruct s as [|c s']; [by left|].
      destruct (N.eqb_spec c (chr "D")) as [->|]; [|by left].
      destruct (digits_then_end nd_value s') eqn:Hs'; [|by left].
      right. exists s'. split; [done|congruence]. }
    + apply digits_then_end_spec in Hd as (Hg & nl & -> & Hnl).
      split; [done|]. exists [], nl. auto.
    + apply digits_then_end_spec in Hd as (Hg & nl & -> & Hnl).
      split; [done|]. exists (of_string "D"), nl. auto.
  - intros (Hg & d & nl & -> & Hd & Hnl).
    assert (digits_then_end nd_value (g ++ nl) = Some g) as Hrun.
    { apply digits_then_end_spec. eauto. }
    destruct (digits_head g Hg) as (c & g' & -> & Hc).
    destruct Hd as [-> | ->].
    + change ([] ++ (c :: g') ++ nl) with (c :: g' ++ nl) in *.
      cbv beta iota.
      destruct (c =? chr "D")%N eqn:HD; [|exact Hrun].
      apply N.eqb_eq in HD. subst c.
      by rewrite ascii_not_digit in Hc.
    + change (of_string "D" ++ (c :: g') ++ nl)
        with (chr "D" :: (c :: g') ++ nl).
      cbv beta iota.
      by rewrite N.eqb_refl, Hrun.
Qed.

Lemma match_Lit (c : N) (p : list atom) (b : bool) (s g0 g : pystr) :
  match_here (Lit c :: p) b s g0 = Some g
  ↔ ∃ s', s = c :: s' ∧ match_here p false s' g0 = Some g.
Proof.
  cbn [match_here]. destruct s as [|c' s']; [split; [done|by intros (? & ? & _)]|].
  destruct (N.eqb_spec c' c) as [->|Hne]; split.
  - intros H. by exists s'.
  - by intros (? & [= <-] & H).
  - done.
  - intros (? & [= ? <-] & _). done.
Qed.

Lemma match_OptLit_Lit (c c2 : N) (p : list atom) (b : bool) (s g0 g : pystr) :
  c ≠ c2 →
  match_here (OptLit c :: Lit c2 :: p) b s g0 = Some g
  ↔ ∃ sch s', s = sch ++ c2 :: s' ∧ (sch = [] ∨ sch = [c])
              ∧ match_here p false s' g0 = Some g.
Proof.
  intros Hne.
  change (match_here (OptLit c :: Lit c2 :: p) b s g0) with
    (match s with
     | c' :: s' =>
         if (c' =? c)%N then
           match match_here (Lit c2 :: p) false s' g0 with
           | Some r => Some r
           | None => match_here (Lit c2 :: p) b s g0
           end
         else match_here (Lit c2 :: p) b s g0
     | [] => match_here (Lit c2 :: p) b s g0
     end).
  split.
  - intros H.
    assert (match_here (Lit c2 :: p) b s g0 = Some g
            ∨ ∃ s', s = c :: s' ∧ match_here (Lit c2 :: p) false s' g0 = Some g)
      as [Hskip|(s' & -> & Htake)].
    { destruct s as [|c' s']; [by left|].
      destruct (N.eqb_spec c' c) as [->|]; [|by left].
      destruct (match_here (Lit c2 :: p) false s' g0) eqn:Htake; [|by left].
      right. exists s'. split; [done|congruence]. }
    + apply match_Lit in Hskip as (s' & -> & Hp). exists [], s'. auto.
    + apply match_Lit in Htake as (s'' & -> & Hp). exists [c], s''. auto.
  - intros (sch & s' & -> & [-> | ->] & Hp); cbn [app].
    + assert (match_here (Lit c2 :: p) b (c2 :: s') g0 = Some g) as Hskip.
      { apply match_Lit. eauto. }
      destruct (N.eqb_spec c2 c) as [->|]; [done|exact Hskip].
    + rewrite N.eqb_refl.
      assert (match_here (Lit c2 :: p) false (c2 :: s') g0 = Some g) as Htake.
      { apply match_Lit. eauto. }
      by rewrite Htake.
Qed.

(** [(\d+)] at the end of a pattern *)
Lemma match_digits_run (b : bool) (s g0 g : pystr) :
  match_here [GroupPlus is_digit] b s g0 = Some g
  ↔ digits nd_value g ∧ ∃ rest, s = g ++ rest ∧ no_digit_ahead nd_value rest.
Proof.
  cbn [match_here]. rewrite plus_loop_span by (right; eauto).
  pose proof (span_run is_digit s) as Hrun.
  pose proof (span_app is_digit s) as Happ.
  pose proof (span_rest is_digit s) as Hrest.
  split.
  - destruct (span is_digit s) as [[|c run] rest]; [done|].
    cbn [fst snd app] in *. intros [= <-].
    split; [done|]. exists rest. by rewrite <- Happ.
  - intros [[Hne Hall] (rest & -> & Hahead)].
    rewrite span_unique; [|done|done].
    by destruct g.
Qed.

(** [[^/]+] followed by ["/"] *)
Lemma match_host (p : list atom) (b : bool) (s g0 g : pystr) :
  match_here (Plus not_slash :: Lit (chr "/") :: p) b s g0 = Some g
  ↔ ∃ host rest, s = host ++ chr "/" :: rest
      ∧ host ≠ [] ∧ Forall (λ c, c ≠ chr "/") host
      ∧ match_here p false rest g0 = Some g.
Proof.
  cbn [match_here].
  rewrite plus_loop_span.
  2:{ left. intros text c rest Hc. unfold not_slash in Hc.
      destruct (N.eqb_spec c (chr "/")); [done|].
      by destruct (N.eqb_spec c (chr "/")). }
  pose proof (span_run not_slash s) as Hrun.
  pose proof (span_app not_slash s) as Happ.
  assert (∀ l, Forall (λ c, not_slash c = true) l
               ↔ Forall (λ c, c ≠ chr "/") l) as Hcls.
  { intros l. apply Forall_iff. intros c. unfold not_slash.
    destruct (N.eqb_spec c (chr "/")); split; done. }
  split.
  - destruct (span not_slash s) as [[|c run] rest]; [done|].
    cbn [fst snd app] in *. intros Hk.
    destruct rest as [|c' rest']; [done|].
    destruct (N.eqb_spec c' (chr "/")) as [->|]; [|done].
    exists (c :: run), rest'. split; [by rewrite <- Happ|].
    split; [done|]. split; [by apply Hcls|done].
  - intros (host & rest & -> & Hne & Hhost & Hp).
    rewrite span_unique; [|by apply Hcls|].
    + destruct host as [|c host]; [done|]. by rewrite N.eqb_refl.
    + unfold not_slash. by rewrite N.eqb_refl.
Qed.

Lemma url_search (s g : pystr) :
  search (url_pattern nd_value) s = Some g ↔ url_shape nd_value s g.
Proof.
  unfold url_pattern, url_shape. rewrite search_anchored. split.
  - intros H.
    apply match_Lit in H as (s1 & -> & H).
    apply match_Lit in H as (s2 & -> & H).
    apply match_Lit in H as (s3 & -> & H).
    apply match_Lit in H as (s4 & -> & H).
    apply match_OptLit_Lit in H as (sch & s5 & -> & Hsch & H); [|done].
    apply match_Lit in H as (s6 & -> & H).
    apply match_Lit in H as (s7 & -> & H).
    apply match_host in H as (host & s8 & -> & Hne & Hhost & H).
    apply match_Lit in H as (s9 & -> & H).
    apply match_digits_run in H as (Hg & rest & -> & Hrest).
    split; [done|]. exists sch, host, rest.
    split; [reflexivity|].
    split; [|done]. destruct Hsch as [-> | ->]; auto.
  - intros (Hg & sch & host & rest & -> & Hsch & Hne & Hhost & Hrest).
    apply match_Lit. eexists. split; [reflexivity|].
    apply match_Lit. eexists. split; [reflexivity|].
    apply match_Lit. eexists. split; [reflexivity|].
    apply match_Lit. eexists. split; [reflexivity|].
    apply match_OptLit_Lit; [done|].
    exists sch. eexists. split; [reflexivity|].
    split; [destruct Hsch as [-> | ->]; auto|].
    apply match_Lit. eexists. split; [reflexivity|].
    apply match_Lit. eexists. split; [reflexivity|].
    apply match_host. exists host. eexists. split; [reflexivity|].
    split; [done|]. split; [done|].
    apply match_Lit. eexists. split; [reflexivity|].
    apply match_digits_run. split; [done|]. by exists rest.
Qed.

(** The text that [int] is given is the one of the shape of the value. *)
Lemma check_revision_id_text (value text : pystr) :
  number_shape nd_value value text ∨ url_shape nd_value value text →
  check_revision_id nd_value max_str_digits value
  = return_int nd_value max_str_digits text.
Proof.
  unfold check_revision_id. intros [Hn|Hu].
  - apply number_search in Hn. by rewrite Hn.
  - destruct (search (number_pattern nd_value) value) as [text'|] eqn:Hn.
    + exfalso. apply number_search in Hn as (Ht & d & nl & -> & Hd & _).
      destruct Hu as (_ & sch & host & rest & Heq & _).
      destruct (digits_head text' Ht) as (c & t & -> & Hc).
      destruct Hd as [-> | ->]; injection Heq as Hhead _.
      * subst c. by rewrite ascii_not_digit in Hc.
      * done.
    + apply url_search in Hu. by rewrite Hu.
Qed.

(** Either a pattern matches and [int] is given the matched digits, or
    the value has none of the shapes and is reported as invalid. *)
Lemma check_revision_id_cases (value : pystr) :
  (∃ text, (number_shape nd_value value text ∨ url_shape nd_value value text)
           ∧ check_revision_id nd_value max_str_digits value
             = return_int nd_value max_str_digits text)
  ∨ ((∀ text, ¬ number_shape nd_value value text
              ∧ ¬ url_shape nd_value value text)
     ∧ check_revision_id nd_value max_str_digits value
       = ArgumentTypeError (invalid_msg value)).
Proof.
  unfold check_revision_id.
  destruct (search (number_pattern nd_value) value) as [text|] eqn:Hn.
  { left. exists text. split; [|done]. left. by apply number_search. }
  destruct (search (url_pattern nd_value) value) as [text|] eqn:Hu.
  { left. exists text. split; [|done]. right. by apply url_search. }
  right. split; [|done]. intros text. split; intros Hshape.
  - apply number_search in Hshape. congruence.
  - apply url_search in Hshape. congruence.
Qed.

(** What the parser accepts, and the id it returns. *)
Lemma check_revision_id_accepts (value : pystr) (id : Z) :
  check_revision_id nd_value max_str_digits value = Parsed id
  ↔ ∃ text, int nd_value max_str_digits text = Some id
      ∧ (number_shape nd_value value text ∨ url_shape nd_value value text).
Proof.
  split.
  - destruct (check_revision_id_cases value) as [(text & Hshape & ->)|[_ ->]];
      [|done].
    unfold return_int.
    destruct (int nd_value max_str_digits text) as [id'|] eqn:Hint; [|done].
    intros [= <-]. by exists text.
  - intros (text & Hint & Hshape).
    rewrite (check_revision_id_text value text Hshape). unfold return_int.
    by rewrite Hint.
Qed.

(** When [int] refuses the digits. *)
Lemma check_revision_id_overflows (value : pystr) :
  check_revision_id nd_value max_str_digits value = ValueError
  ↔ ∃ text, int nd_value max_str_digits text = None
      ∧ (number_shape nd_value value text ∨ url_shape nd_value value text).
Proof.
  split.
  - destruct (check_revision_id_cases value) as [(text & Hshape & ->)|[_ ->]];
      [|done].
    unfold return_int.
    destruct (int nd_value max_str_digits text) as [id'|] eqn:Hint; [done|].
    intros _. by exists text.
  - intros (text & Hint & Hshape).
    rewrite (check_revision_id_text value text Hshape). unfold return_int.
    by rewrite Hint.
Qed.

(** A number, a "D"-prefixed number and a full URL all yield the id. *)
Lemma check_revision_id_spellings :
  check_revision_id nd_value max_str_digits (of_string "123") = Parsed 123
  ∧ check_revision_id nd_value max_str_digits (of_string "D123") = Parsed 123
  ∧ check_revision_id nd_value max_str_digits
      (of_string "https://phabricator.services.mozilla.com/D123")
    = Parsed 123.
Proof. repeat split; vm_compute; reflexivity. Qed.

(** Every string of another shape is rejected. *)
Lemma check_revision_id_rejects (value : pystr) :
  (∀ text, ¬ number_shape nd_value value text
           ∧ ¬ url_shape nd_value value text) →
  check_revision_id nd_value max_str_digits value
  = ArgumentTypeError (invalid_msg value).
Proof.
  intros Hshape.
  destruct (check_revision_id_cases value) as [(text & [H|H] & _)|[_ Hrun]];
    [by destruct (Hshape text)..|exact Hrun].
Qed.

(** C8.  The parser does not reject every string other than a
    number, a "D"-prefixed number or a URL: [$] also matches just
    before a newline that ends the string, so "123" and "D123"
    followed by a newline are accepted and yield 123. *)
Theorem check_revision_id_trailing_newline :
  check_revision_id nd_value max_str_digits (of_string "123" ++ [10%N])
  = Parsed 123
  ∧ check_revision_id nd_value max_str_digits (of_string "D123" ++ [10%N])
    = Parsed 123.
Proof. split; vm_compute; reflexivity. Qed.
End Facts.
End RevisionIdFacts.

(** ** Raw mode without no-commit mode *)

Lemma calls_ret (P : event → Prop) {A} (a : A) : calls_only P (mret a : M A).
Proof. intros st. exists []. by rewrite app_nil_r. Qed.

Lemma calls_pass (P : event → Prop) : calls_only P pass.
Proof. intros st. exists []. by rewrite app_nil_r. Qed.

Lemma calls_raise (P : event → Prop) {A} (e : exn) : calls_only P (raise e : M A).
Proof. intros st. exists []. by rewrite app_nil_r. Qed.

Lemma calls_emit (P : event → Prop) (e : event) : P e → calls_only P (emit e).
Proof. intros He st. exists [e]. split; [done|]. by constructor. Qed.

Lemma calls_bind (P : event → Prop) {A B} (m : M A) (f : A → M B) :
  calls_only P m → (∀ a, calls_only P (f a)) → calls_only P (m ≫= f).
Proof.
  intros Hm Hf st. rewrite bind_case. destruct (Hm st) as (evs & Htr & Hall).
  destruct (m st) as [[a|e] st1]; simpl in *; [|eauto].
  destruct (Hf a st1) as (evs' & Htr' & Hall').
  exists (evs ++ evs'). rewrite Htr', Htr, <- app_assoc. split; [done|].
  by apply Forall_app.
Qed.

Lemma calls_get_always_full_stack (P : event → Prop) :
  calls_only P get_always_full_stack.
Proof. intros st. exists []. by rewrite app_nil_r. Qed.

Lemma calls_set_always_full_stack (P : event → Prop) (b : bool) :
  calls_only P (set_always_full_stack b).
Proof. intros st. exists []. by rewrite app_nil_r. Qed.

Lemma calls_config_write (P : event → Prop) :
  (∀ b, P (ConfigWrite b)) → calls_only P config_write.
Proof. intros HP st. exists [ConfigWrite (always_full_stack st)]. split; [done|]. by constructor. Qed.

Create HintDb calls discriminated.
#[local] Hint Resolve calls_get_always_full_stack calls_set_always_full_stack : calls.

Ltac calls_step :=
  first
    [ solve [auto 1 with calls nocore]
    | apply calls_bind; [|intros ?]
    | apply calls_ret | apply calls_pass | apply calls_raise
    | apply calls_emit; by repeat split
    | apply calls_config_write; intros ?; by repeat split
    | match goal with
      | |- calls_only _ (if ?b then _ else _) => destruct b
      | |- calls_only _ (match ?x with _ => _ end) => destruct x
      end ].

Ltac calls :=
  unfold wait_message, log_info, log_warning, call_conduit_check, call_check_vcs,
    call_is_worktree_clean, call_get_revisions_by_ids,
    call_get_revisions_by_phids, call_get_ancestor_phids,
    call_get_successor_phids, call_prompt, call_get_diffs, call_check_node,
    call_get_raw_diff, dict_get, list_first, list_last;
  repeat calls_step.

Lemma silent_preflight (w : World) (args : Args) :
  raw args = true → calls_only silent (preflight w args).
Proof. intros Hraw. unfold preflight. rewrite Hraw. calls. Qed.

Lemma silent_fetch_stack (w : World) (args : Args) :
  calls_only silent (fetch_stack w args).
Proof.
  unfold fetch_stack, fetch_parents, fetch_children, confirm_children,
    fetch_related. calls.
Qed.

Lemma silent_check_commit_info (diffs : gmap string Diff) (revisions : list Revision) :
  calls_only silent (check_commit_info diffs revisions).
Proof.
  intros st. exists []. by rewrite check_commit_info_state, app_nil_r.
Qed.

Lemma silent_pull_diffs (w : World) (args : Args) (revisions : list Revision) :
  raw args = true → calls_only silent (pull_diffs w args revisions).
Proof.
  intros Hraw. unfold pull_diffs. rewrite Hraw, andb_false_r. calls.
Qed.

Lemma silent_resolve (w : World) (args : Args) :
  raw args = true → calls_only silent (resolve w args).
Proof.
  intros Hraw. unfold resolve.
  apply calls_bind; [by apply silent_preflight|]. intros _.
  apply calls_bind; [by apply silent_fetch_stack|]. intros revisions.
  apply calls_bind; [by apply silent_pull_diffs|]. intros diffs.
  apply calls_ret.
Qed.

Lemma apply_one_raw (w : World) (args : Args) (diffs : gmap string Diff)
    (last_id : Z) (parent : option Z) (rev : Revision) (st : State) :
  raw args = true → no_commit args = false →
  apply_one w args diffs last_id parent rev st =
    match diffs !! rev_diffPHID rev with
    | Some diff => (Ok (), record_all (raw_events w rev diff) st)
    | None => (Raise (KeyError (rev_diffPHID rev)), st)
    end.
Proof.
  intros Hraw Hnc. unfold apply_one. run_monad. rewrite Hraw, Hnc.
  by destruct (diffs !! rev_diffPHID rev).
Qed.

Lemma info_texts_app (es1 es2 : list event) :
  info_texts (es1 ++ es2) = info_texts es1 ++ info_texts es2.
Proof. unfold info_texts. apply omap_app. Qed.

Lemma info_texts_silent (es : list event) :
  Forall silent es → info_texts es = [].
Proof.
  induction 1 as [|e es [_ He] _ IH]; [done|].
  change (e :: es) with ([e] ++ es). by rewrite info_texts_app, He, IH.
Qed.

Lemma raw_texts_cons (w : World) (diffs : gmap string Diff) (rev : Revision)
    (diff : Diff) (revisions : list Revision) :
  diffs !! rev_diffPHID rev = Some diff →
  raw_texts w diffs (rev :: revisions)
  = get_raw_diff w (diff_id diff) :: raw_texts w diffs revisions.
Proof.
  intros Hdiff. unfold raw_texts.
  change (rev :: revisions) with ([rev] ++ revisions).
  rewrite omap_app. cbn [omap list_omap]. by rewrite Hdiff.
Qed.

Lemma raw_texts_length (w : World) (diffs : gmap string Diff)
    (revisions : list Revision) :
  Forall (λ rev, is_Some (diffs !! rev_diffPHID rev)) revisions →
  length (raw_texts w diffs revisions) = length revisions.
Proof.
  induction 1 as [|rev l [d Hd] _ IH]; [done|].
  rewrite (raw_texts_cons _ _ _ _ _ Hd). simpl. by rewrite IH.
Qed.

Lemma apply_loop_raw (w : World) (args : Args) (diffs : gmap string Diff)
    (last_id : Z) (revisions : list Revision) :
  raw args = true → no_commit args = false →
  ∀ (parent : option Z) (st : State),
  ∃ evs,
    trace (apply_loop w args diffs last_id parent revisions st).2 = trace st ++ evs
    ∧ Forall hands_off evs
    ∧ commits (apply_loop w args diffs last_id parent revisions st).2 = commits st
    ∧ (Forall (λ rev, is_Some (diffs !! rev_diffPHID rev)) revisions →
       (apply_loop w args diffs last_id parent revisions st).1 = Ok ()
       ∧ info_texts evs = raw_texts w diffs revisions).
Proof.
  intros Hraw Hnc. induction revisions as [|rev revisions IH]; intros parent st.
  - exists []. simpl. by rewrite app_nil_r.
  - simpl. rewrite bind_case, apply_one_raw by done.
    destruct (diffs !! rev_diffPHID rev) as [diff|] eqn:Hdiff.
    + destruct (IH (Some (rev_id rev)) (record_all (raw_events w rev diff) st))
        as (evs & Htr & Hall & Hcs & Hok).
      exists (raw_events w rev diff ++ evs). split; [|split; [|split]].
      * rewrite Htr, trace_record_all, <- app_assoc. done.
      * apply Forall_app. split; [|done]. repeat constructor.
      * by rewrite Hcs, commits_record_all.
      * intros Hpresent. inversion Hpresent as [|? ? _ Hrest]; subst.
        destruct (Hok Hrest) as [Hres Htexts]. split; [done|].
        rewrite info_texts_app, Htexts. reflexivity.
    + exists []. simpl. rewrite app_nil_r.
      split; [done|]. split; [constructor|]. split; [done|].
      intros Hpresent. inversion Hpresent as [|? ? [d Hd] _]; congruence.
Qed.

(** A resolved stack is never empty. *)
Lemma fetch_stack_nonempty (w : World) (args : Args) (st st' : State)
    (revisions : list Revision) :
  fetch_stack w args st = (Ok revisions, st') → revisions ≠ [].
Proof.
  unfold fetch_stack, call_get_revisions_by_ids.
  do 2 (rewrite bind_case; simpl).
  destruct (get_revisions_by_ids w [revision_id args]) as [|root more]; [done|].
  rewrite bind_case.
  destruct (fetch_parents w args root _) as [[parents|e] st1]; [|done].
  rewrite bind_case.
  destruct (fetch_children w args root st1) as [[children|e] st2]; [|done].
  rewrite bind_case.
  destruct (confirm_children w args children st2) as [[kept|e] st3]; [|done].
  rewrite fetch_related_run. intros [= <- _].
  destruct (nonempty parents); simpl; [|done].
  rewrite reverse_cons. intros H. apply app_eq_nil in H as [H _].
  by apply app_eq_nil in H as [_ H].
Qed.

Lemma resolve_nonempty (w : World) (args : Args) (st st' : State)
    (revisions : list Revision) (diffs : gmap string Diff) :
  resolve w args st = (Ok (revisions, diffs), st') → revisions ≠ [].
Proof.
  unfold resolve. rewrite !bind_case.
  destruct (preflight w args st) as [[[]|e] st1]; [|done].
  rewrite bind_case.
  destruct (fetch_stack w args st1) as [[l|e] st2] eqn:Hstack; [|done].
  rewrite bind_case.
  destruct (pull_diffs w args l st2) as [[d|e] st3]; [|done].
  intros [= <- _ _]. by eapply fetch_stack_nonempty.
Qed.

(** In raw mode without [--no-commit] the whole run makes no guard call
    and changes neither the working tree nor the history; once the
    stack is resolved and the service has returned a diff for every
    revision, the run succeeds and what it writes with [logger.info] is
    exactly the raw diff of each revision, in stack order. *)
Lemma raw_mode_only_prints (w : World) (args : Args) (st : State) :
  raw args = true → no_commit args = false →
  ∃ evs,
    trace (patch w args st).2 = trace st ++ evs
    ∧ Forall hands_off evs
    ∧ commits (patch w args st).2 = commits st
    ∧ ∀ revisions diffs st1,
        resolve w args st = (Ok (revisions, diffs), st1) →
        Forall (λ rev, is_Some (diffs !! rev_diffPHID rev)) revisions →
        (patch w args st).1 = Ok ()
        ∧ info_texts evs = raw_texts w diffs revisions
        ∧ length (info_texts evs) = length revisions.
Proof.
  intros Hraw Hnc.
  destruct (silent_resolve w args Hraw st) as (evs0 & Htr0 & Hsilent).
  pose proof (keeps_resolve w args st) as Hcs0.
  assert (Forall hands_off evs0) as Hoff0.
  { eapply Forall_impl; [exact Hsilent|]. by intros e [? _]. }
  unfold patch. rewrite bind_case.
  destruct (resolve w args st) as [[[revisions diffs]|e] st1] eqn:Hres;
    simpl in Htr0, Hcs0.
  2:{ exists evs0. split; [done|]. split; [done|]. split; [done|].
      by intros ? ? ?. }
  destruct (apply_loop_raw w args diffs
              (default 0%Z (rev_id <$> last revisions)) revisions Hraw Hnc None st1)
    as (evs & Htr & Hoff & Hcs & Hok).
  unfold list_last. destruct (last revisions) as [target|] eqn:Hlast.
  2:{ apply last_None in Hlast. subst revisions.
      by apply resolve_nonempty in Hres. }
  simpl in Htr, Hcs, Hok.
  rewrite bind_case. simpl.
  unfold select_base, apply_stack. rewrite Hraw. simpl.
  rewrite !bind_case. simpl.
  destruct (apply_loop w args diffs (rev_id target) None revisions st1)
    as [[[]|e] st2] eqn:Hloop;
    rewrite !(bind_case (apply_loop w args diffs (rev_id target) None revisions)),
      !Hloop; simpl in *.
  - exists (evs0 ++ evs). rewrite Htr, Htr0, <- app_assoc.
    split; [done|]. split; [by apply Forall_app|]. split; [congruence|].
    intros revisions' diffs' st1' [= <- <- <-] Hpresent.
    destruct (Hok Hpresent) as [_ Htexts]. split; [done|].
    rewrite info_texts_app, info_texts_silent, Htexts by done.
    split; [done|]. by apply raw_texts_length.
  - exists (evs0 ++ evs). rewrite Htr, Htr0, <- app_assoc.
    split; [done|]. split; [by apply Forall_app|]. split; [congruence|].
    intros revisions' diffs' st1' [= <- <- <-] Hpresent.
    by destruct (Hok Hpresent).
Qed.

(** ** Raw mode together with no-commit mode (C6) *)

(** C6.  [--raw --no-commit] on the three-revision stack: the guard is
    skipped as in raw mode, yet every diff is applied to the working
    tree with [apply_patch], and no raw diff text is written at all. *)
Theorem raw_with_no_commit_patches_tree :
  ∃ st',
    patch Demo.friendly Demo.args_raw_no_commit (init_state false) = (Ok (), st')
    ∧ filter is_guard_call (trace st') = []
    ∧ filter is_mutation (trace st')
      = [ApplyPatch "diff 1101" "/repo"; ApplyPatch "diff 1102" "/repo";
         ApplyPatch "diff 1103" "/repo"]
    ∧ info_texts (trace st') = [].
Proof.
  eexists. split; [vm_compute; reflexivity|].
  repeat split; vm_compute; reflexivity.
Qed.

(** ** The error of a failed patch names no revision *)

(** The run of the three-revision stack in commit mode, where the
    repository rejects the patch of the second revision, D102: one
    commit exists, and the error is "Patch failed to apply", in which
    the id 102 does not occur. *)
Lemma patch_failure_names_no_revision :
  raw Demo.args = false ∧ no_commit Demo.args = false
  ∧ (resolve Demo.world Demo.args (init_state false)).1
    = Ok ([Demo.revision 101; Demo.revision 102; Demo.revision 103], Demo.diffs)
  ∧ length (commits (patch Demo.world Demo.args (init_state false)).2) = 1
  ∧ (patch Demo.world Demo.args (init_state false)).1
    = Raise (Error "Patch failed to apply")
  ∧ ¬ ∃ msg, (patch Demo.world Demo.args (init_state false)).1 = Raise (Error msg)
             ∧ mentions (rev_id (Demo.revision 102)) msg = true.
Proof.
  assert ((patch Demo.world Demo.args (init_state false)).1
          = Raise (Error "Patch failed to apply")) as Hrun.
  { vm_compute. reflexivity. }
  repeat split; try (vm_compute; reflexivity).
  intros (msg & Hmsg & Hid). rewrite Hrun in Hmsg. injection Hmsg as <-.
  vm_compute in Hid. discriminate Hid.
Qed.

(** * The theorems at work on the concrete service *)

(** [--yes], a set preference, and an answered prompt on D102 with its child D103. *)
Lemma yes_flag_precedes_preference_witness :
  confirm_children Demo.world Demo.args_yes ["PHID-DREV-103"] (init_state false)
  = (Ok ["PHID-DREV-103"], init_state false)
  ∧ confirm_children Demo.world Demo.args ["PHID-DREV-103"] (init_state true)
    = (Ok ["PHID-DREV-103"], init_state true)
  ∧ (confirm_children Demo.world Demo.args ["PHID-DREV-103"] (init_state false)).1
    = Ok ["PHID-DREV-103"].
Proof.
  pose proof (yes_flag_precedes_preference Demo.world Demo.args_yes
                ["PHID-DREV-103"] (init_state false)) as (Hyes & _ & _).
  pose proof (yes_flag_precedes_preference Demo.world Demo.args
                ["PHID-DREV-103"] (init_state true)) as (_ & Hpref & _).
  pose proof (yes_flag_precedes_preference Demo.world Demo.args
                ["PHID-DREV-103"] (init_state false)) as (_ & _ & Hask).
  split; [|split].
  - apply Hyes. reflexivity.
  - apply Hpref; reflexivity.
  - rewrite Hask; [reflexivity | reflexivity | reflexivity | discriminate].
Defined.

(** D102 with a branching ancestry. *)
Lemma nonlinear_parents_fatal_witness :
  ∃ msg evs st',
    patch Demo.branching_parents Demo.args (init_state false)
    = (Raise (Error msg), st')
    ∧ trace st' = evs
    ∧ Forall (λ e, is_diff_fetch e = false) evs
    ∧ commits st' = []
    ∧ msg = nonlinear_msg Demo.args "Unable to patch the stack.".
Proof.
  destruct (nonlinear_parents_fatal Demo.branching_parents Demo.args
              (init_state false) (Demo.revision 102) [])
    as (msg & evs & st' & Hrun & Htrace & Hquiet & Hcommits & Hmsg);
    [reflexivity | reflexivity | reflexivity |].
  exists msg, evs, st'. repeat split; try assumption.
  apply Hmsg. reflexivity.
Defined.

(** D102 with parent D101 and child D103. *)
Lemma linear_stack_order_witness :
  ∃ revisions st',
    fetch_stack Demo.world Demo.args (init_state false) = (Ok revisions, st')
    ∧ rev_id <$> revisions = [101; 102; 103]%Z
    ∧ length revisions = 3
    ∧ revisions !! 1 = Some (Demo.revision 102).
Proof.
  destruct (linear_stack_order Demo.world Demo.args (init_state false)
              (Demo.revision 102) ["PHID-DREV-101"] ["PHID-DREV-103"])
    as (revisions & st' & Hrun & Hrevs & _ & Hlen & Hroot);
    [reflexivity | reflexivity | reflexivity | reflexivity
    | vm_compute; reflexivity | vm_compute; reflexivity |].
  exists revisions, st'. repeat split; try assumption.
  rewrite Hrevs. vm_compute. reflexivity.
Defined.

(** D102 with parent D101 and a branching descendant chain. *)
Lemma nonlinear_children_dropped_witness :
  (fetch_stack Demo.branching_children Demo.args (init_state false)).1
  = Ok [Demo.revision 101; Demo.revision 102].
Proof.
  rewrite (nonlinear_children_dropped Demo.branching_children Demo.args
             (init_state false) (Demo.revision 102) [] ["PHID-DREV-101"]);
    [vm_compute; reflexivity
    | reflexivity | reflexivity | reflexivity | reflexivity].
Defined.

(** Diffs without and with a reference of type "base". *)
Lemma base_mode_selection_witness :
  patch Demo.without_base Demo.args (init_state false)
  = (Raise (Error no_base_msg),
     (resolve Demo.without_base Demo.args (init_state false)).2)
  ∧ get_base_ref (Demo.diff Demo.base_refs 101) = Some "abcdef".
Proof.
  split.
  - refine (proj2 (proj1 (base_mode_selection Demo.without_base Demo.args
              (init_state false)
              (resolve Demo.without_base Demo.args (init_state false)).2
              Demo.stack
              (get_diffs Demo.without_base (rev_diffPHID <$> Demo.stack))
              (Demo.revision 101) (Demo.diff Demo.branch_refs 101)
              _ _ _ _ _) _));
      try (vm_compute; reflexivity).
    intros ref Hin Hbase. apply list_elem_of_singleton in Hin. subst ref.
    discriminate Hbase.
  - refine (proj1 (proj2 (base_mode_selection Demo.world Demo.args
              (init_state false)
              (resolve Demo.world Demo.args (init_state false)).2
              Demo.stack Demo.diffs
              (Demo.revision 101) (Demo.diff Demo.base_refs 101)
              _ _ _ _ _)
              [ {| ref_type := "branch"; ref_identifier := "default" |} ]
              {| ref_type := "base"; ref_identifier := "abcdef" |}
              [] _ _ _));
      try (vm_compute; reflexivity).
    intros r Hin Hbase. apply list_elem_of_singleton in Hin. subst r.
    discriminate Hbase.
Defined.

(** The stack D101, D102, D103 when no diff has commit information. *)
Lemma commit_info_required_witness :
  let w := with_commits (λ _, []) Demo.friendly in
  (∃ e, (patch w Demo.args (init_state false)).1 = Raise e
        ∧ blames (get_diffs w (rev_diffPHID <$> Demo.stack)) Demo.stack e)
  ∧ (resolve w Demo.args_raw (init_state false)).1
    = Ok (Demo.stack, get_diffs w (rev_diffPHID <$> Demo.stack))
  ∧ patch (with_commits (λ _, [Demo.ann]) w) Demo.args_raw (init_state false)
    = patch w Demo.args_raw (init_state false).
Proof.
  intros w.
  pose proof (commit_info_required w Demo.args (init_state false)
                (resolve_stack w Demo.args (init_state false)).2
                Demo.stack (Demo.revision 102)
                (set_commits (λ _, []) (Demo.diff Demo.base_refs 102))) as Hcommit.
  pose proof (commit_info_required w Demo.args_raw (init_state false)
                (resolve_stack w Demo.args_raw (init_state false)).2
                Demo.stack (Demo.revision 102)
                (set_commits (λ _, []) (Demo.diff Demo.base_refs 102))) as Hraw.
  split; [|split].
  - destruct Hcommit as [Hfatal _];
      [vm_compute; reflexivity
      | apply list_elem_of_In; vm_compute; tauto
      | vm_compute; reflexivity | reflexivity |].
    destruct Hfatal as (e & Hrun & Hwhy); [reflexivity | reflexivity |].
    exists e. rewrite Hrun. split; [reflexivity | exact Hwhy].
  - destruct Hraw as [_ Hskip];
      [vm_compute; reflexivity
      | apply list_elem_of_In; vm_compute; tauto
      | vm_compute; reflexivity | reflexivity |].
    destruct Hskip as [Hres _]; [left; reflexivity|].
    rewrite Hres. reflexivity.
  - destruct Hraw as [_ Hskip];
      [vm_compute; reflexivity
      | apply list_elem_of_In; vm_compute; tauto
      | vm_compute; reflexivity | reflexivity |].
    destruct Hskip as [_ Hany]; [left; reflexivity|].
    apply Hany.
Defined.

(** The three commits of D101, D102, D103 and their links. *)
Lemma depends_on_previous_witness :
  ∃ created,
    commits (apply_loop Demo.friendly Demo.args Demo.diffs 103 None Demo.stack
               (init_state false)).2 = created
    ∧ length created = 3
    ∧ ∀ i c, created !! i = Some c →
        ∃ rev, Demo.stack !! i = Some rev
          ∧ commit_body c =
              Demo.body (rev_title rev) (rev_summary rev) (rev_id rev)
                "https://phabricator.example" (depends_on Demo.stack i).
Proof.
  destruct (depends_on_previous Demo.friendly Demo.args Demo.diffs 103 Demo.stack
              (init_state false))
    as (created & Hcommits & Hlen & Hbodies); [reflexivity | reflexivity |].
  exists created. split; [exact Hcommits|]. split; [|exact Hbodies].
  apply Hlen. vm_compute. reflexivity.
Defined.

(** The repository rejects the patch of D102. *)
Lemma second_patch_fails_witness :
  ∃ st',
    patch Demo.world Demo.args (init_state false)
    = (Raise (Error "Patch failed to apply"), st')
    ∧ commits st'
      = [commit_for Demo.world None (Demo.revision 101)
           (Demo.diff Demo.base_refs 101) Demo.ann].
Proof.
  destruct (second_patch_fails Demo.world Demo.args (init_state false)
              (resolve Demo.world Demo.args (init_state false)).2
              (select_base Demo.world Demo.args Demo.stack Demo.diffs 103
                 (resolve Demo.world Demo.args (init_state false)).2).2
              (Demo.revision 101) (Demo.revision 102) (Demo.revision 103)
              Demo.diffs
              (Demo.diff Demo.base_refs 101) (Demo.diff Demo.base_refs 102)
              Demo.ann Demo.ann [] [])
    as (st' & Hrun & Hcommits & _);
    try (vm_compute; reflexivity).
  exists st'. split; [exact Hrun | exact Hcommits].
Defined.

(** * Further properties of [patch] *)

(** ** When the guard fails *)

(** X1.  When the connection check or the guard fails, the run ends
    with the corresponding fatal error and has done nothing else: no
    revision is looked up, no diff is fetched and the repository is not
    touched. *)
Theorem guard_failure_stops_run (w : World) (args : Args) (st : State) :
  preflight_ok w args = false →
  patch w args st
  = (Raise (Error (preflight_error w args)),
     record_all (preflight_events w args) st).
Proof.
  intros Hko. unfold patch, resolve.
  erewrite bind_Raise; [done|]. erewrite bind_Raise; [done|].
  unfold preflight, preflight_ok, preflight_error, preflight_events in *.
  run_monad.
  destruct (conduit_check w), (raw args); simpl in *; try done.
  destruct (check_vcs w) as [msg|]; simpl in *; [done|].
  destruct (is_worktree_clean w); simpl in *; done.
Qed.

(** ** An unknown revision *)

(** X2.  When the guard passes and the service knows no revision of the
    requested id, the run ends with "Revision not found" right after
    that lookup: no walk is started and nothing else is fetched. *)
Theorem unknown_revision_stops_run (w : World) (args : Args) (st : State) :
  preflight_ok w args = true →
  get_revisions_by_ids w [revision_id args] = [] →
  patch w args st
  = (Raise (Error "Revision not found"),
     record_all (preflight_events w args ++ root_events args) st).
Proof.
  intros Hok Hnone. unfold patch, resolve.
  destruct (preflight_run w args st) as (res & Hrun & Hres & _).
  rewrite (Hres Hok) in Hrun.
  erewrite bind_Raise; [done|]. erewrite bind_Ok; [|exact Hrun].
  erewrite bind_Raise; [done|].
  unfold fetch_stack. run_monad. rewrite Hnone.
  by rewrite record_all_app.
Qed.

(** ** [--no-dependencies] *)

(** X3.  With [--no-dependencies] neither walk is made, whatever
    [--no-parents] and [--no-children] say: nothing is asked about
    relatives, no prompt is shown, and the stack is what the lookup of
    the requested id returned. *)
Theorem no_dependencies_patches_root_only (w : World) (args : Args) (st : State)
    (root : Revision) (more : list Revision) :
  no_dependencies args = true →
  get_revisions_by_ids w [revision_id args] = root :: more →
  fetch_stack w args st = (Ok (root :: more), record_all (root_events args) st).
Proof.
  intros Hnd Hroot.
  unfold fetch_stack, fetch_parents, fetch_children, confirm_children,
    fetch_related, eff_no_parents, eff_no_children.
  run_monad. rewrite Hroot, Hnd. simpl. by destruct (yes args).
Qed.

(** ** [get_base_ref] *)

(** X4.  [get_base_ref] returns an identifier exactly when the diff has
    a reference list with an entry of type "base", and the identifier is
    that of the first such entry. *)
Theorem get_base_ref_first_base (diff : Diff) (node : string) :
  get_base_ref diff = Some node
  ↔ ∃ pre ref post,
      diff_refs diff = Some (pre ++ ref :: post)
      ∧ (∀ r, r ∈ pre → ref_type r ≠ "base")
      ∧ ref_type ref = "base"
      ∧ ref_identifier ref = node.
Proof.
  unfold get_base_ref. split.
  - destruct (diff_refs diff) as [refs|]; simpl; [|done].
    induction refs as [|r refs IH]; simpl; [done|].
    destruct (String.eqb (ref_type r) "base") eqn:Hr.
    + intros [= <-]. apply String.eqb_eq in Hr.
      exists [], r, refs. repeat split; [|done].
      intros r' Hin. by apply elem_of_nil in Hin.
    + intros H. destruct (IH H) as (pre & ref & post & [= ->] & Hpre & Href & Hid).
      exists (r :: pre), ref, post. repeat split; [|done|done].
      intros r' [->|Hin]%elem_of_cons; [|by apply Hpre].
      by apply String.eqb_neq.
  - intros (pre & ref & post & -> & Hpre & Href & <-). simpl.
    by apply first_base_Some.
Qed.

(** ** Where the stack is applied *)

Lemma append_empty_r (s : string) : s +:+ "" = s.
Proof.
  induction s as [|a s IH]; [reflexivity|].
  change (String a s +:+ "") with (String a (s +:+ "")). by rewrite IH.
Qed.

(** X5.  With "here" as the target the repository is not asked about
    any node: once the stack is resolved, the only call before the loop
    is [before_patch] without a base node, after which the stack is
    applied. *)
Theorem apply_here_checks_no_node (w : World) (args : Args) (st st1 : State)
    (revisions : list Revision) (diffs : gmap string Diff) (target : Revision) :
  raw args = false →
  eff_apply_to w args = "here" →
  resolve w args st = (Ok (revisions, diffs), st1) →
  last revisions = Some target →
  patch w args st
  = apply_stack w args revisions diffs (rev_id target)
      (record_all [BeforePatch None (branch_name_for args (rev_id target))] st1).
Proof.
  intros Hraw Hmode Hres Hlast. unfold patch.
  erewrite bind_Ok; [|exact Hres]. simpl.
  unfold list_last. rewrite Hlast. erewrite bind_Ok; [|reflexivity].
  erewrite bind_Ok; [reflexivity|].
  unfold select_base, choose_base, validate_base. rewrite Hraw, Hmode. simpl.
  reflexivity.
Qed.

(** X6.  A target other than "here" and "base" is used verbatim: it is
    the node the repository is asked to check.  When the repository
    knows it, [before_patch] gets the node the check returned and the
    stack is applied; when it does not, the run ends with the "Unknown
    revision" error before [before_patch] is called. *)
Theorem explicit_target_is_checked (w : World) (args : Args) (st st1 : State)
    (revisions : list Revision) (diffs : gmap string Diff) (target : Revision)
    (node : string) :
  raw args = false →
  eff_apply_to w args = node →
  node ≠ "here" → node ≠ "base" →
  resolve w args st = (Ok (revisions, diffs), st1) →
  last revisions = Some target →
  let checking := [Wait ("Checking " +:+ short_node w node +:+ ".."); CheckNode node] in
  patch w args st
  = match check_node w node with
    | inr found =>
        apply_stack w args revisions diffs (rev_id target)
          (record_all
             (checking
              ++ [BeforePatch (Some found) (branch_name_for args (rev_id target))])
             st1)
    | inl e =>
        (Raise (Error ("Unknown revision: " +:+ short_node w node
                       +:+ (if String.eqb e "" then "" else newline +:+ e))),
         record_all checking st1)
    end.
Proof.
  intros Hraw Hmode Hhere Hbase Hres Hlast checking. unfold patch.
  erewrite bind_Ok; [|exact Hres]. simpl.
  unfold list_last. rewrite Hlast. erewrite bind_Ok; [|reflexivity].
  apply String.eqb_neq in Hhere, Hbase.
  unfold select_base, choose_base, validate_base, unknown_revision_msg.
  rewrite Hraw, Hmode, Hhere, Hbase. run_monad.
  destruct (check_node w node) as [e|found]; simpl.
  - by rewrite append_empty_r.
  - reflexivity.
Qed.

(** X7.  With "base" as the target and a non-empty base identifier in
    the first revision's diff, that identifier is the node the
    repository is asked to check.  An unknown node ends the run before
    [before_patch] is called, and the error then carries the hint to
    use [--apply-to]. *)
Theorem base_target_is_checked (w : World) (args : Args) (st st1 : State)
    (revisions : list Revision) (diffs : gmap string Diff)
    (first target : Revision) (diff : Diff) (node : string) :
  raw args = false →
  eff_apply_to w args = "base" →
  resolve w args st = (Ok (revisions, diffs), st1) →
  head revisions = Some first →
  last revisions = Some target →
  diffs !! rev_diffPHID first = Some diff →
  get_base_ref diff = Some node →
  node ≠ "" →
  let checking := [Wait ("Checking " +:+ short_node w node +:+ ".."); CheckNode node] in
  patch w args st
  = match check_node w node with
    | inr found =>
        apply_stack w args revisions diffs (rev_id target)
          (record_all
             (checking
              ++ [BeforePatch (Some found) (branch_name_for args (rev_id target))])
             st1)
    | inl e =>
        (Raise (Error ("Unknown revision: " +:+ short_node w node
                       +:+ (if String.eqb e "" then "" else newline +:+ e)
                       +:+ newline +:+ "Use --apply-to to set the base commit.")),
         record_all checking st1)
    end.
Proof.
  intros Hraw Hmode Hres Hfirst Hlast Hdiff Hbase Hne checking. unfold patch.
  erewrite bind_Ok; [|exact Hres]. simpl.
  unfold list_last. rewrite Hlast. erewrite bind_Ok; [|reflexivity].
  apply String.eqb_neq in Hne.
  unfold select_base, choose_base, validate_base, unknown_revision_msg,
    list_first, dict_get.
  rewrite Hraw, Hmode, Hfirst. run_monad. rewrite Hdiff. simpl.
  rewrite Hbase, Hne. simpl.
  by destruct (check_node w node) as [e|found].
Qed.

(** ** A stack that applies cleanly *)

Lemma check_commit_info_ok (diffs : gmap string Diff) (revisions : list Revision)
    (st : State) :
  (check_commit_info diffs revisions st).1 = Ok () →
  Forall (has_commit_info diffs) revisions.
Proof.
  induction revisions as [|rev revisions IH]; simpl; [constructor|].
  rewrite bind_case. unfold dict_get.
  destruct (diffs !! rev_diffPHID rev) as [diff|] eqn:Hdiff; simpl; [|done].
  destruct (diff_commits diff) as [|first others] eqn:Hfirst; simpl; [done|].
  intros Hrest. constructor; [|by apply IH].
  by exists diff, first, others.
Qed.

Lemma pull_diffs_commit_mode (w : World) (args : Args) (revisions : list Revision)
    (st : State) :
  raw args = false → no_commit args = false →
  pull_diffs w args revisions st
  = match check_commit_info (get_diffs w (rev_diffPHID <$> revisions)) revisions
            (record_all (pull_events args revisions) st) with
    | (Ok _, st') => (Ok (get_diffs w (rev_diffPHID <$> revisions)), st')
    | (Raise e, st') => (Raise e, st')
    end.
Proof.
  intros Hraw Hnc. unfold pull_diffs, pull_events. rewrite Hraw, Hnc. simpl.
  erewrite bind_Ok; [|reflexivity].
  erewrite bind_Ok; [|reflexivity].
  erewrite bind_Ok; [|reflexivity].
  rewrite bind_case. simpl.
  by destruct (check_commit_info _ _ _) as [[[]|e] st'].
Qed.

(** In commit mode a resolved stack has commit information throughout. *)
Lemma resolve_commit_info (w : World) (args : Args) (st st1 : State)
    (revisions : list Revision) (diffs : gmap string Diff) :
  raw args = false → no_commit args = false →
  resolve w args st = (Ok (revisions, diffs), st1) →
  Forall (has_commit_info diffs) revisions.
Proof.
  intros Hraw Hnc. rewrite resolve_split, bind_case.
  destruct (resolve_stack w args st) as [[l|e] st0]; [|done].
  rewrite bind_case, pull_diffs_commit_mode by done.
  pose proof (check_commit_info_ok (get_diffs w (rev_diffPHID <$> l)) l
                (record_all (pull_events args l) st0)) as Hinfo.
  destruct (check_commit_info _ _ _) as [[[]|e] st']; [|done].
  intros [= <- <- _]. by apply Hinfo.
Qed.

Lemma apply_loop_commit_ok (w : World) (args : Args) (diffs : gmap string Diff)
    (last_id : Z) (revisions : list Revision) :
  raw args = false → no_commit args = false →
  (∀ history c, repo_apply_patch w history c = true) →
  Forall (has_commit_info diffs) revisions →
  ∀ (parent : option Z) (st : State),
  ∃ created evs,
    apply_loop w args diffs last_id parent revisions st
    = (Ok (), {| trace := trace st ++ evs;
                 always_full_stack := always_full_stack st;
                 commits := commits st ++ created |})
    ∧ Forall (λ e, is_progress e = true) evs
    ∧ length created = length revisions
    ∧ ∀ i rev, revisions !! i = Some rev →
        ∃ diff first others,
          diffs !! rev_diffPHID rev = Some diff
          ∧ diff_commits diff = first :: others
          ∧ created !! i
            = Some (commit_for w
                      (match i with 0 => parent | S j => rev_id <$> revisions !! j end)
                      rev diff first).
Proof.
  intros Hraw Hnc Hyes Hinfo.
  induction Hinfo as [|rev revisions (diff & first & others & Hdiff & Hfirst) _ IH];
    intros parent st.
  - exists [], []. simpl. rewrite !app_nil_r. split; [by destruct st|].
    split; [constructor|]. split; [done|]. intros i rev Hi.
    by rewrite lookup_nil in Hi.
  - simpl.
    erewrite bind_Ok; [|by eapply apply_one_commit_ok].
    match goal with
    | |- context [apply_loop _ _ _ _ _ _ ?s] =>
        destruct (IH (Some (rev_id rev)) s) as (created & evs & Hrun & Hev & Hlen & Hall)
    end.
    rewrite Hrun. simpl.
    exists (commit_for w parent rev diff first :: created),
      ((commit_events rev diff (commit_for w parent rev diff first) true
        ++ (if Z.eqb (rev_id rev) last_id then []
            else [LogInfo (applied_msg (rev_id rev))])) ++ evs).
    split; [by rewrite <- !app_assoc|].
    split.
    { apply Forall_app. split; [|done]. apply Forall_app. split.
      - repeat constructor.
      - destruct (Z.eqb (rev_id rev) last_id); repeat constructor. }
    split; [simpl; by rewrite Hlen|].
    intros [|i] rev' Hi; simpl in Hi.
    + injection Hi as <-. by exists diff, first, others.
    + destruct (Hall i rev' Hi) as (d & f & o & Hd & Hf & Hc).
      exists d, f, o. split; [done|]. split; [done|]. simpl. rewrite Hc.
      by destruct i.
Qed.

(** X8.  In commit mode, when the stack is resolved, the base is
    prepared and the repository accepts every patch, the run succeeds:
    it creates one commit per revision, in stack order, each from the
    raw diff, the first author and the creation date of the revision's
    diff and with the previous revision as its "depends on" link, and
    the last thing it does is to report the last revision as applied. *)
Theorem commit_mode_applies_whole_stack (w : World) (args : Args)
    (st st1 st2 : State) (revisions : list Revision) (diffs : gmap string Diff)
    (target : Revision) :
  raw args = false → no_commit args = false →
  resolve w args st = (Ok (revisions, diffs), st1) →
  last revisions = Some target →
  select_base w args revisions diffs (rev_id target) st1 = (Ok (), st2) →
  (∀ history c, repo_apply_patch w history c = true) →
  ∃ created st',
    patch w args st = (Ok (), st')
    ∧ commits st' = commits st ++ created
    ∧ length created = length revisions
    ∧ (∀ i rev, revisions !! i = Some rev →
         ∃ diff first others,
           diffs !! rev_diffPHID rev = Some diff
           ∧ diff_commits diff = first :: others
           ∧ created !! i
             = Some (commit_for w (depends_on revisions i) rev diff first))
    ∧ last (trace st') = Some (LogWarning (applied_msg (rev_id target))).
Proof.
  intros Hraw Hnc Hres Hlast Hbase Hyes.
  pose proof (resolve_commit_info w args st st1 revisions diffs Hraw Hnc Hres) as Hinfo.
  destruct (apply_loop_commit_ok w args diffs (rev_id target) revisions
              Hraw Hnc Hyes Hinfo None st2)
    as (created & evs & Hrun & _ & Hlen & Hall).
  assert (commits st2 = commits st) as Hhist.
  { pose proof (keeps_select_base w args revisions diffs (rev_id target) st1) as H2.
    pose proof (keeps_resolve w args st) as H1.
    rewrite Hbase in H2. rewrite Hres in H1. simpl in *. congruence. }
  exists created. eexists. split; [|split; [|split; [|split]]].
  - unfold patch. erewrite bind_Ok; [|exact Hres]. simpl.
    unfold list_last. rewrite Hlast. erewrite bind_Ok; [|reflexivity].
    erewrite bind_Ok; [|exact Hbase].
    unfold apply_stack. erewrite bind_Ok; [|exact Hrun].
    rewrite Hraw. reflexivity.
  - simpl. by rewrite Hhist.
  - done.
  - done.
  - simpl. by rewrite last_snoc.
Qed.

(** ** No-commit mode *)

Lemma apply_one_no_commit (w : World) (args : Args) (diffs : gmap string Diff)
    (last_id : Z) (parent : option Z) (rev : Revision) (st : State) :
  raw args = false → no_commit args = true →
  apply_one w args diffs last_id parent rev st =
    match diffs !! rev_diffPHID rev with
    | Some diff => (Ok (), record_all (no_commit_events w last_id rev diff) st)
    | None => (Raise (KeyError (rev_diffPHID rev)), st)
    end.
Proof.
  intros Hraw Hnc. unfold apply_one, no_commit_events. run_monad.
  rewrite Hraw, Hnc.
  destruct (diffs !! rev_diffPHID rev) as [diff|]; simpl; [|done].
  by destruct (Z.eqb (rev_id rev) last_id).
Qed.

Lemma apply_loop_no_commit (w : World) (args : Args) (diffs : gmap string Diff)
    (last_id : Z) (revisions : list Revision) :
  raw args = false → no_commit args = true →
  Forall (λ rev, is_Some (diffs !! rev_diffPHID rev)) revisions →
  ∀ (parent : option Z) (st : State),
  apply_loop w args diffs last_id parent revisions st
  = (Ok (), record_all (no_commit_loop_events w diffs last_id revisions) st).
Proof.
  intros Hraw Hnc Hall.
  induction Hall as [|rev revisions [diff Hdiff] _ IH]; intros parent st; [done|].
  simpl. rewrite bind_case, apply_one_no_commit by done.
  unfold no_commit_loop_events. simpl. rewrite Hdiff.
  by rewrite IH, record_all_app.
Qed.

(** X9.  In no-commit mode, when the stack is resolved, the base is
    prepared and the service returned a diff for every revision, the
    run succeeds: each revision's raw diff is downloaded and handed to
    [apply_patch] on the repository path, in stack order, the
    repository is never asked to commit, and the history stays as it
    was. *)
Theorem no_commit_mode_patches_in_place (w : World) (args : Args)
    (st st1 st2 : State) (revisions : list Revision) (diffs : gmap string Diff)
    (target : Revision) :
  raw args = false → no_commit args = true →
  resolve w args st = (Ok (revisions, diffs), st1) →
  last revisions = Some target →
  select_base w args revisions diffs (rev_id target) st1 = (Ok (), st2) →
  Forall (λ rev, is_Some (diffs !! rev_diffPHID rev)) revisions →
  patch w args st
  = (Ok (),
     record_all
       (no_commit_loop_events w diffs (rev_id target) revisions
        ++ [LogWarning (applied_msg (rev_id target))]) st2)
  ∧ commits (patch w args st).2 = commits st.
Proof.
  intros Hraw Hnc Hres Hlast Hbase Hall.
  assert (patch w args st
          = (Ok (),
             record_all
               (no_commit_loop_events w diffs (rev_id target) revisions
                ++ [LogWarning (applied_msg (rev_id target))]) st2)) as Hrun.
  { unfold patch. erewrite bind_Ok; [|exact Hres]. simpl.
    unfold list_last. rewrite Hlast. erewrite bind_Ok; [|reflexivity].
    erewrite bind_Ok; [|exact Hbase].
    unfold apply_stack. erewrite bind_Ok; [|by apply apply_loop_no_commit].
    rewrite Hraw. simpl. by rewrite record_all_app. }
  split; [exact Hrun|]. rewrite Hrun. simpl. rewrite commits_record_all.
  pose proof (keeps_select_base w args revisions diffs (rev_id target) st1) as H2.
  pose proof (keeps_resolve w args st) as H1.
  rewrite Hbase in H2. rewrite Hres in H1. simpl in *. congruence.
Qed.

(** ** What [before_patch] is asked for *)

(** X10.  Outside raw mode, whenever the base selection succeeds it has
    called [before_patch] exactly once, as its last call and after
    nothing but the announcement and the check of the node; the branch
    asked for is "phab-D" followed by the id of the last revision of the
    stack, and in no-commit mode no branch is asked for. *)
Theorem before_patch_branch (w : World) (args : Args) (revisions : list Revision)
    (diffs : gmap string Diff) (target_id : Z) (st st' : State) :
  raw args = false →
  select_base w args revisions diffs target_id st = (Ok (), st') →
  ∃ checks base,
    st' = record_all
            (checks
             ++ [BeforePatch base
                   (if no_commit args then None
                    else Some ("phab-D" +:+ str_of_int target_id))]) st
    ∧ Forall (λ e, is_node_check e = true) checks.
Proof.
  intros Hraw. unfold select_base, choose_base, validate_base. rewrite Hraw.
  simpl.
  destruct (String.eqb (eff_apply_to w args) "base") eqn:Hbase.
  - apply String.eqb_eq in Hbase. rewrite Hbase. simpl.
    unfold list_first, dict_get. run_monad.
    destruct (head revisions) as [first|]; simpl; [|done].
    destruct (diffs !! rev_diffPHID first) as [diff|]; simpl; [|done].
    destruct (get_base_ref diff) as [node|]; simpl; [|done].
    destruct (String.eqb node ""); simpl; [done|].
    destruct (check_node w node) as [e|found]; simpl; [done|].
    intros [= <-]. eexists [_; _], _. split; [reflexivity|].
    repeat constructor.
  - destruct (String.eqb (eff_apply_to w args) "here") eqn:Hhere; run_monad.
    + intros [= <-]. exists [], None. split; [reflexivity|constructor].
    + destruct (check_node w (eff_apply_to w args)) as [e|found]; simpl; [done|].
      intros [= <-]. eexists [_; _], _. split; [reflexivity|].
      repeat constructor.
Qed.

(** ** No list is read out of bounds *)

Lemma in_bounds_ret {A} (a : A) : in_bounds (mret a : M A).
Proof. by intros st. Qed.

Lemma in_bounds_pass : in_bounds pass.
Proof. by intros st. Qed.

Lemma in_bounds_raise {A} (e : exn) : e ≠ IndexError → in_bounds (raise e : M A).
Proof. intros He st [= ->]. done. Qed.

Lemma in_bounds_emit (e : event) : in_bounds (emit e).
Proof. by intros st. Qed.

Lemma in_bounds_bind {A B} (m : M A) (f : A → M B) :
  in_bounds m → (∀ a, in_bounds (f a)) → in_bounds (m ≫= f).
Proof.
  intros Hm Hf st. rewrite bind_case. specialize (Hm st).
  destruct (m st) as [[a|e] st1]; [apply (Hf a st1)|].
  simpl in *. intros [= ->]. by apply Hm.
Qed.

Lemma in_bounds_get_always_full_stack : in_bounds get_always_full_stack.
Proof. by intros st. Qed.

Lemma in_bounds_set_always_full_stack (b : bool) : in_bounds (set_always_full_stack b).
Proof. by intros st. Qed.

Lemma in_bounds_config_write : in_bounds config_write.
Proof. by intros st. Qed.

Lemma in_bounds_call_repo_apply_patch (w : World) (c : Commit) :
  in_bounds (call_repo_apply_patch w c).
Proof. by intros st. Qed.

Create HintDb bounds discriminated.
#[local] Hint Resolve in_bounds_get_always_full_stack
  in_bounds_set_always_full_stack in_bounds_config_write
  in_bounds_call_repo_apply_patch : bounds.

Ltac bounds_step :=
  first
    [ solve [auto 1 with bounds nocore]
    | apply in_bounds_bind; [|intros ?]
    | apply in_bounds_ret | apply in_bounds_pass | apply in_bounds_emit
    | apply in_bounds_raise; discriminate
    | match goal with
      | |- in_bounds (if ?b then _ else _) => destruct b
      | |- in_bounds (match ?x with _ => _ end) => destruct x
      end ].

Ltac bounds :=
  unfold wait_message, log_info, log_warning, call_conduit_check, call_check_vcs,
    call_is_worktree_clean, call_get_revisions_by_ids,
    call_get_revisions_by_phids, call_get_ancestor_phids,
    call_get_successor_phids, call_prompt, call_get_diffs, call_check_node,
    call_get_raw_diff, dict_get;
  repeat bounds_step.

Lemma in_bounds_check_commit_info (diffs : gmap string Diff)
    (revisions : list Revision) :
  in_bounds (check_commit_info diffs revisions).
Proof.
  induction revisions as [|rev revisions IH]; simpl; [apply in_bounds_pass|].
  bounds.
Qed.
#[local] Hint Resolve in_bounds_check_commit_info : bounds.

Lemma in_bounds_resolve (w : World) (args : Args) : in_bounds (resolve w args).
Proof.
  unfold resolve, preflight, fetch_stack, fetch_parents, fetch_children,
    confirm_children, fetch_related, pull_diffs.
  bounds.
Qed.

Lemma in_bounds_select_base (w : World) (args : Args) (revisions : list Revision)
    (diffs : gmap string Diff) (target : Z) :
  revisions ≠ [] →
  in_bounds (select_base w args revisions diffs target).
Proof.
  intros Hne. unfold select_base, choose_base, validate_base, list_first.
  destruct revisions as [|first revisions]; [done|]. simpl.
  bounds.
Qed.

Lemma in_bounds_apply_one (w : World) (args : Args) (diffs : gmap string Diff)
    (last_id : Z) (parent : option Z) (rev : Revision) :
  (raw args = false → no_commit args = false → has_commit_info diffs rev) →
  in_bounds (apply_one w args diffs last_id parent rev).
Proof.
  intros Hinfo st. unfold apply_one, dict_get. rewrite bind_case.
  destruct (diffs !! rev_diffPHID rev) as [diff|] eqn:Hdiff; simpl; [|done].
  match goal with
  | |- (?m st).1 ≠ Raise IndexError => generalize st; change (in_bounds m)
  end.
  destruct (no_commit args) eqn:Hnc; [bounds|].
  destruct (raw args) eqn:Hraw; [bounds|].
  destruct Hinfo as (d & first & others & Hd & Hfirst); [done|done|].
  assert (d = diff) as -> by congruence.
  unfold list_first. rewrite Hfirst. simpl. bounds.
Qed.

Lemma in_bounds_apply_loop (w : World) (args : Args) (diffs : gmap string Diff)
    (last_id : Z) (revisions : list Revision) :
  (raw args = false → no_commit args = false →
   Forall (has_commit_info diffs) revisions) →
  ∀ parent, in_bounds (apply_loop w args diffs last_id parent revisions).
Proof.
  intros Hinfo.
  induction revisions as [|rev revisions IH]; intros parent; simpl;
    [apply in_bounds_pass|].
  apply in_bounds_bind.
  - apply in_bounds_apply_one. intros Hraw Hnc.
    by eapply Forall_inv, Hinfo.
  - intros _. apply IH. intros Hraw Hnc. by eapply Forall_inv_tail, Hinfo.
Qed.

(** X11.  [patch] never reads a list out of bounds: whatever the
    service and the repository answer, no [IndexError] leaves the run.
    The stack it indexes is never empty, and in commit mode every diff
    whose first commit it reads has passed the check for commit
    information. *)
Theorem patch_raises_no_IndexError (w : World) (args : Args) (st : State) :
  (patch w args st).1 ≠ Raise IndexError.
Proof.
  unfold patch. rewrite bind_case.
  pose proof (in_bounds_resolve w args st) as Hres.
  destruct (resolve w args st) as [[[revisions diffs]|e] st1] eqn:Hrun.
  2:{ simpl in *. intros [= ->]. by apply Hres. }
  pose proof (resolve_nonempty _ _ _ _ _ _ Hrun) as Hne.
  assert (raw args = false → no_commit args = false →
          Forall (has_commit_info diffs) revisions) as Hinfo.
  { intros Hraw Hnc. by eapply resolve_commit_info. }
  rewrite bind_case. unfold list_last.
  destruct (last revisions) as [target|] eqn:Hlast.
  2:{ by apply last_None in Hlast. }
  simpl.
  match goal with
  | |- (?m st1).1 ≠ Raise IndexError => generalize st1; change (in_bounds m)
  end.
  apply in_bounds_bind; [by apply in_bounds_select_base|]. intros _.
  unfold apply_stack. apply in_bounds_bind.
  - by apply in_bounds_apply_loop.
  - intros _. bounds.
Qed.

(** ** The persisted preference *)

Lemma respects_ret (w : World) {A} (a : A) : respects_preference w (mret a : M A).
Proof.
  intros st. exists []. rewrite app_nil_r. split; [done|]. left. by split.
Qed.

Lemma respects_pass (w : World) : respects_preference w pass.
Proof.
  intros st. exists []. rewrite app_nil_r. split; [done|]. left. by split.
Qed.

Lemma respects_raise (w : World) {A} (e : exn) :
  respects_preference w (raise e : M A).
Proof.
  intros st. exists []. rewrite app_nil_r. split; [done|]. left. by split.
Qed.

Lemma respects_emit (w : World) (e : event) :
  writes_no_config e → respects_preference w (emit e).
Proof.
  intros He st. exists [e]. split; [done|]. left. split; [done|].
  by constructor.
Qed.

Lemma respects_call_repo_apply_patch (w : World) (c : Commit) :
  respects_preference w (call_repo_apply_patch w c).
Proof.
  intros st. eexists [_]. split; [reflexivity|]. left. split; [done|].
  constructor; [|constructor]. by intros b.
Qed.

Lemma respects_bind (w : World) {A B} (m : M A) (f : A → M B) :
  respects_preference w m → (∀ a, respects_preference w (f a)) →
  respects_preference w (m ≫= f).
Proof.
  intros Hm Hf st. rewrite bind_case. destruct (Hm st) as (evs & Htr & Hpref).
  destruct (m st) as [[a|e] st1]; simpl in *; [|by exists evs].
  destruct (Hf a st1) as (evs' & Htr' & Hpref').
  exists (evs ++ evs'). rewrite Htr', Htr, <- app_assoc. split; [done|].
  destruct Hpref' as [[Hsame' Hno']|[Hset' (q & Hq & Hans)]].
  - destruct Hpref as [[Hsame Hno]|[Hset (q & Hq & Hans)]].
    + left. split; [congruence|]. by apply Forall_app.
    + right. split; [congruence|]. exists q. split; [|done].
      apply elem_of_app. by left.
  - right. split; [done|]. exists q. split; [|done].
    apply elem_of_app. by right.
Qed.

Lemma respects_confirm_children (w : World) (args : Args) (children : list string) :
  respects_preference w (confirm_children w args children).
Proof.
  intros st. unfold confirm_children. run_monad.
  destruct (yes args); simpl.
  { exists []. rewrite app_nil_r. split; [done|]. left. by split. }
  destruct children as [|c cs]; simpl.
  { exists []. rewrite app_nil_r. split; [done|]. left. by split. }
  destruct (always_full_stack st) eqn:Hfull; simpl.
  { exists []. rewrite app_nil_r. split; [done|]. left. by split. }
  fold children_options.
  destruct (String.eqb (prompt w _ _) "Always") eqn:Halways; simpl.
  - apply String.eqb_eq in Halways. eexists [_; _].
    split; [by rewrite <- app_assoc|]. right. split; [done|].
    eexists. split; [|exact Halways]. by left.
  - eexists [_].
    destruct (String.eqb (prompt w _ _) "No"); simpl;
      (split; [reflexivity|]; left; split; [done|]);
      (constructor; [by intros b|constructor]).
Qed.

Create HintDb pref discriminated.
#[local] Hint Resolve respects_confirm_children respects_call_repo_apply_patch : pref.

Ltac pref_step :=
  first
    [ solve [auto 1 with pref nocore]
    | apply respects_bind; [|intros ?]
    | apply respects_ret | apply respects_pass | apply respects_raise
    | apply respects_emit; by intros ?
    | match goal with
      | |- respects_preference _ (if ?b then _ else _) => destruct b
      | |- respects_preference _ (match ?x with _ => _ end) => destruct x
      end ].

Ltac pref :=
  unfold wait_message, log_info, log_warning, call_conduit_check, call_check_vcs,
    call_is_worktree_clean, call_get_revisions_by_ids,
    call_get_revisions_by_phids, call_get_ancestor_phids,
    call_get_successor_phids, call_prompt, call_get_diffs, call_check_node,
    call_get_raw_diff, dict_get, list_first, list_last;
  repeat pref_step.

Lemma respects_check_commit_info (w : World) (diffs : gmap string Diff)
    (revisions : list Revision) :
  respects_preference w (check_commit_info diffs revisions).
Proof.
  induction revisions as [|rev revisions IH]; simpl; [apply respects_pass|].
  pref.
Qed.
#[local] Hint Resolve respects_check_commit_info : pref.

Lemma respects_apply_loop (w : World) (args : Args) (diffs : gmap string Diff)
    (last_id : Z) (revisions : list Revision) :
  ∀ parent, respects_preference w (apply_loop w args diffs last_id parent revisions).
Proof.
  induction revisions as [|rev revisions IH]; intros parent; simpl;
    [apply respects_pass|].
  apply respects_bind; [|intros _; apply IH].
  unfold apply_one. pref.
Qed.
#[local] Hint Resolve respects_apply_loop : pref.

(** X12.  A run never clears the "always patch the full stack"
    preference.  It leaves the preference as it was and does not write
    the configuration, unless the prompt about the children was shown
    and answered "Always"; then the preference is set. *)
Theorem preference_changes_only_by_always (w : World) (args : Args) (st : State) :
  ∃ evs,
    trace (patch w args st).2 = trace st ++ evs
    ∧ ((always_full_stack (patch w args st).2 = always_full_stack st
        ∧ Forall writes_no_config evs)
       ∨ (always_full_stack (patch w args st).2 = true
          ∧ ∃ question,
              Prompt question children_options ∈ evs
              ∧ prompt w question children_options = "Always")).
Proof.
  revert st. change (respects_preference w (patch w args)).
  unfold patch, resolve, preflight, fetch_stack, fetch_parents, fetch_children,
    fetch_related, pull_diffs, select_base, choose_base, validate_base,
    apply_stack.
  pref.
Qed.

(** ** Children that the user declines *)

Lemma confirm_children_declined (w : World) (args : Args) (children : list string)
    (st : State) :
  yes args = false →
  always_full_stack st = false →
  children ≠ [] →
  prompt w (children_question args children) children_options = "No" →
  confirm_children w args children st
  = (Ok [], record_all [Prompt (children_question args children) children_options] st).
Proof.
  intros Hyes Hfull Hne Hno. unfold confirm_children. rewrite Hyes.
  destruct children as [|c cs]; [done|]. run_monad. rewrite Hfull. simpl.
  fold children_options. by rewrite Hno.
Qed.

(** X13.  When the walk finds children, the preference is not set, the
    run is not told [--yes] and the user answers "No", the children are
    left out: they are asked about once, their revisions are not
    fetched, the preference stays unset, and the stack consists of the
    resolved parents and the root. *)
Theorem declined_children_are_skipped (w : World) (args : Args) (st : State)
    (root : Revision) (more : list Revision) (parents children : list string) :
  yes args = false →
  always_full_stack st = false →
  get_revisions_by_ids w [revision_id args] = root :: more →
  walk_parents w args root = Some parents →
  walk_children w args root = Some children →
  children ≠ [] →
  prompt w (children_question args children) children_options = "No" →
  fetch_stack w args st =
    (Ok (if nonempty parents
         then reverse ((root :: more) ++ get_revisions_by_phids w parents)
         else root :: more),
     record_all
       (root_events args
        ++ parents_events args root
        ++ children_events args root
        ++ [Prompt (children_question args children) children_options]
        ++ related_events parents) st).
Proof.
  intros Hyes Hfull Hroot Hpar Hchi Hne Hno. unfold fetch_stack.
  erewrite bind_Ok; [|reflexivity].
  erewrite bind_Ok; [|reflexivity]. rewrite Hroot.
  erewrite bind_Ok; [|by apply fetch_parents_ok].
  erewrite bind_Ok; [|by apply fetch_children_ok].
  erewrite bind_Ok.
  2:{ apply confirm_children_declined; try done.
      by rewrite !always_full_stack_record_all. }
  rewrite fetch_related_run. simpl. rewrite !app_nil_r.
  f_equal. by rewrite !record_all_app.
Qed.

(** ** After a rejected patch *)

Lemma commit_attempts_app (es1 es2 : list event) :
  commit_attempts (es1 ++ es2) = commit_attempts es1 ++ commit_attempts es2.
Proof. unfold commit_attempts. apply omap_app. Qed.

(** One round of the loop in commit mode: it commits, or the repository
    rejects the patch, or the round fails before the repository is
    asked. *)
Lemma apply_one_commit_cases (w : World) (args : Args) (diffs : gmap string Diff)
    (last_id : Z) (parent : option Z) (rev : Revision) (st : State) :
  raw args = false → no_commit args = false →
  ∃ evs,
    trace (apply_one w args diffs last_id parent rev st).2 = trace st ++ evs
    ∧ ((∃ c, (apply_one w args diffs last_id parent rev st).1 = Ok ()
             ∧ commits (apply_one w args diffs last_id parent rev st).2
               = commits st ++ [c]
             ∧ commit_attempts evs = [(c, true)])
       ∨ (∃ c, (apply_one w args diffs last_id parent rev st).1
               = Raise (Error "Patch failed to apply")
               ∧ commits (apply_one w args diffs last_id parent rev st).2 = commits st
               ∧ commit_attempts evs = [(c, false)])
       ∨ (∃ e, (apply_one w args diffs last_id parent rev st).1 = Raise e
               ∧ (∀ msg, e ≠ Error msg)
               ∧ commits (apply_one w args diffs last_id parent rev st).2 = commits st
               ∧ commit_attempts evs = [])).
Proof.
  intros Hraw Hnc.
  destruct (diffs !! rev_diffPHID rev) as [diff|] eqn:Hdiff.
  2:{ exists []. unfold apply_one, dict_get. rewrite Hdiff. simpl.
      rewrite app_nil_r. split; [done|]. right. right.
      eexists. repeat split; done. }
  destruct (diff_commits diff) as [|first others] eqn:Hfirst.
  { eexists [_; _]. unfold apply_one. run_monad. rewrite Hdiff, Hnc, Hraw, Hfirst.
    simpl. split; [by rewrite <- app_assoc|]. right. right.
    eexists. repeat split; done. }
  destruct (repo_apply_patch w (commits st) (commit_for w parent rev diff first))
    eqn:Happlied.
  - rewrite (apply_one_commit_ok _ _ _ _ _ _ _ _ _ _ Hraw Hnc Hdiff Hfirst Happlied).
    eexists. split; [reflexivity|]. left. eexists. repeat split.
    rewrite commit_attempts_app. simpl.
    by destruct (Z.eqb (rev_id rev) last_id).
  - rewrite (apply_one_commit_fail _ _ _ _ _ _ _ _ _ _ Hraw Hnc Hdiff Hfirst Happlied).
    eexists. split; [reflexivity|]. right. left. eexists. repeat split.
Qed.

(** X14.  In commit mode the loop stops at the first patch the
    repository rejects: among its calls, every attempt to commit but
    possibly the last was accepted, the history has grown by exactly the
    accepted commits, and a rejected attempt is the last one and ends
    the loop with "Patch failed to apply".  The loop succeeds only with
    one commit per revision. *)
Theorem stops_at_first_rejected_patch (w : World) (args : Args)
    (diffs : gmap string Diff) (last_id : Z) (revisions : list Revision)
    (parent : option Z) (st : State) :
  raw args = false → no_commit args = false →
  ∃ evs created rejected,
    trace (apply_loop w args diffs last_id parent revisions st).2 = trace st ++ evs
    ∧ commits (apply_loop w args diffs last_id parent revisions st).2
      = commits st ++ created
    ∧ commit_attempts evs = ((λ c, (c, true)) <$> created) ++ rejected
    ∧ match (apply_loop w args diffs last_id parent revisions st).1 with
      | Ok _ => rejected = [] ∧ length created = length revisions
      | Raise e =>
          length created < length revisions
          ∧ ((rejected = [] ∧ ∀ msg, e ≠ Error msg)
             ∨ (∃ c, rejected = [(c, false)] ∧ e = Error "Patch failed to apply"))
      end.
Proof.
  intros Hraw Hnc. revert parent st.
  induction revisions as [|rev revisions IH]; intros parent st.
  - exists [], [], []. simpl. by rewrite !app_nil_r.
  - simpl. rewrite bind_case.
    destruct (apply_one_commit_cases w args diffs last_id parent rev st Hraw Hnc)
      as (evs & Htr & Hcase).
    destruct (apply_one w args diffs last_id parent rev st) as [res st1].
    simpl in Htr, Hcase.
    destruct Hcase as [(c & -> & Hcs & Hatt)|[(c & -> & Hcs & Hatt)|(e & -> & He & Hcs & Hatt)]].
    + destruct (IH (Some (rev_id rev)) st1)
        as (evs' & created & rejected & Htr' & Hcs' & Hatt' & Hres).
      exists (evs ++ evs'), (c :: created), rejected.
      split; [by rewrite Htr', Htr, <- app_assoc|].
      split; [by rewrite Hcs', Hcs, <- app_assoc|].
      split; [by rewrite commit_attempts_app, Hatt, Hatt'|].
      destruct (apply_loop w args diffs last_id (Some (rev_id rev)) revisions st1).1;
        simpl; [destruct Hres as [-> ->]; done|].
      destruct Hres as [Hlen Hrej]. split; [lia|done].
    + exists evs, [], [(c, false)]. simpl. rewrite app_nil_r.
      repeat split; try done; [lia|]. right. by exists c.
    + exists evs, [], []. simpl. rewrite app_nil_r.
      repeat split; try done; [lia|]. by left.
Qed.

(** * Further properties of [check_revision_id] *)
Module RevisionIdMore.
Import RevisionId RevisionIdSpec RevisionIdFacts.

Section More.
Variable nd_value : N → option N.
Variable max_str_digits : N.

(** X15.  [check_revision_id] returns an id exactly for the strings of
    two shapes whose run of digits [int] converts: a non-empty run of
    decimal digits, possibly after one "D" and possibly before one
    final newline; and "http://" or "https://", a non-empty host without
    "/", "/D" and a non-empty run of decimal digits, followed by
    anything that does not go on with a digit.  The id is the decimal
    value of that run.  On a string of one of these shapes whose run of
    digits is too long for [int], and on no other string, the
    [ValueError] of [int] leaves the function. *)
Theorem check_revision_id_language (value : pystr) :
  (∀ id,
     check_revision_id nd_value max_str_digits value = Parsed id
     ↔ ∃ text,
         (number_shape nd_value value text ∨ url_shape nd_value value text)
         ∧ too_long max_str_digits text = false
         ∧ id = decimal_value nd_value text)
  ∧ (check_revision_id nd_value max_str_digits value = ValueError
     ↔ ∃ text,
         (number_shape nd_value value text ∨ url_shape nd_value value text)
         ∧ too_long max_str_digits text = true).
Proof.
  split; [intros id|].
  - rewrite check_revision_id_accepts. unfold int.
    split; intros (text & H); exists text.
    + destruct H as [Hint Hshape].
      destruct (too_long max_str_digits text); [done|].
      injection Hint as <-. done.
    + destruct H as (Hshape & Hfits & ->). by rewrite Hfits.
  - rewrite check_revision_id_overflows. unfold int.
    split; intros (text & H); exists text.
    + destruct H as [Hint Hshape].
      by destruct (too_long max_str_digits text).
    + destruct H as [Hshape Hlong]. by rewrite Hlong.
Qed.

(** X16.  A string of neither shape is rejected with an
    [ArgumentTypeError] whose message quotes the string as it was
    given. *)
Theorem check_revision_id_error_quotes_value (value : pystr) :
  (∀ text, ¬ number_shape nd_value value text ∧ ¬ url_shape nd_value value text) →
  check_revision_id nd_value max_str_digits value
  = ArgumentTypeError
      (of_string "Invalid Revision ID (expected number or URL): "
       ++ value ++ [10%N]).
Proof. apply check_revision_id_rejects. Qed.

(** The value of a run of digits read after [acc]. *)
Lemma int_fold (text : pystr) :
  decimal_value nd_value text
  = Z.of_N (fold_left (λ acc c, 10 * acc + default 0 (digit_value nd_value c))%N
              text 0%N).
Proof. reflexivity. Qed.

Lemma of_string_app (s1 s2 : string) :
  of_string (s1 +:+ s2) = of_string s1 ++ of_string s2.
Proof.
  induction s1 as [|a s1 IH]; [reflexivity|].
  change (String a s1 +:+ s2) with (String a (s1 +:+ s2)). simpl.
  by rewrite IH.
Qed.

Lemma pretty_char_value (x : N) :
  (x < 10)%N →
  digit_value nd_value (Ascii.N_of_ascii (pretty_N_char x)) = Some x.
Proof.
  intros Hx.
  assert (x = 0 ∨ x = 1 ∨ x = 2 ∨ x = 3 ∨ x = 4 ∨ x = 5 ∨ x = 6
          ∨ x = 7 ∨ x = 8 ∨ x = 9)%N as Hcases by lia.
  repeat (destruct Hcases as [->|Hcases]; [reflexivity|]). by subst.
Qed.

Lemma pretty_go_digits (x : N) (s : string) :
  Forall (λ c, is_digit nd_value c = true) (of_string s) →
  Forall (λ c, is_digit nd_value c = true) (of_string (pretty_N_go x s)).
Proof.
  revert s. induction (N.lt_wf_0 x) as [x _ IH]; intros s Hs.
  assert (x = 0 ∨ 0 < x)%N as [->|Hpos] by lia; [by rewrite pretty_N_go_0|].
  rewrite pretty_N_go_step by done. apply IH; [by apply N.div_lt|].
  simpl. constructor; [|done].
  unfold RevisionId.is_digit. rewrite pretty_char_value; [done|].
  by apply N.mod_lt.
Qed.

Lemma pretty_go_nonempty (x : N) (s : string) :
  of_string s ≠ [] → of_string (pretty_N_go x s) ≠ [].
Proof.
  revert s. induction (N.lt_wf_0 x) as [x _ IH]; intros s Hs.
  assert (x = 0 ∨ 0 < x)%N as [->|Hpos] by lia; [by rewrite pretty_N_go_0|].
  rewrite pretty_N_go_step by done. apply IH; [by apply N.div_lt|done].
Qed.

Lemma pretty_go_value (x : N) (s : string) :
  fold_left (λ acc c, 10 * acc + default 0 (digit_value nd_value c))%N
    (of_string (pretty_N_go x s)) 0%N
  = fold_left (λ acc c, 10 * acc + default 0 (digit_value nd_value c))%N
      (of_string s) x.
Proof.
  revert s. induction (N.lt_wf_0 x) as [x _ IH]; intros s.
  assert (x = 0 ∨ 0 < x)%N as [->|Hpos] by lia; [by rewrite pretty_N_go_0|].
  rewrite pretty_N_go_step by done. rewrite IH by (by apply N.div_lt).
  simpl. rewrite pretty_char_value by (by apply N.mod_lt). simpl.
  f_equal. rewrite (N.div_mod x 10) at 3 by done. lia.
Qed.

(** The decimal rendering of a non-negative integer is a run of digits
    whose value is that integer. *)
Lemma str_of_int_digits (n : Z) :
  (0 ≤ n)%Z →
  digits nd_value (of_string (str_of_int n))
  ∧ decimal_value nd_value (of_string (str_of_int n)) = n.
Proof.
  intros Hn. unfold str_of_int, pretty, pretty_Z.
  destruct n as [|p|p]; [| |lia].
  - split; [|reflexivity]. split; [done|]. repeat constructor.
  - unfold pretty, pretty_positive, pretty, pretty_N.
    destruct (decide (N.pos p = 0%N)) as [|_]; [done|].
    split; [split|].
    + rewrite pretty_N_go_step by lia. by apply pretty_go_nonempty.
    + apply pretty_go_digits. constructor.
    + rewrite int_fold, pretty_go_value. simpl. lia.
Qed.

(** X17.  What [patch] prints for a revision can be given back to the
    parser: for every non-negative id whose decimal rendering [int]
    converts, the rendering, the rendering after "D" (the form "D%s" of
    the messages), and a URL that ends with "/D" and the rendering are
    all accepted, and yield the id. *)
Theorem check_revision_id_reads_rendered_id (n : Z) (host : pystr) :
  (0 ≤ n)%Z →
  too_long max_str_digits (of_string (str_of_int n)) = false →
  host ≠ [] →
  Forall (λ c, c ≠ chr "/") host →
  check_revision_id nd_value max_str_digits (of_string (str_of_int n)) = Parsed n
  ∧ check_revision_id nd_value max_str_digits (of_string ("D" +:+ str_of_int n))
    = Parsed n
  ∧ check_revision_id nd_value max_str_digits
      (of_string "https://" ++ host ++ of_string ("/D" +:+ str_of_int n))
    = Parsed n.
Proof.
  intros Hn Hfits Hne Hhost.
  destruct (str_of_int_digits n Hn) as [Hdigits Hvalue].
  assert (int nd_value max_str_digits (of_string (str_of_int n)) = Some n) as Hint.
  { unfold int. by rewrite Hfits, Hvalue. }
  repeat split; apply check_revision_id_accepts;
    exists (of_string (str_of_int n)); (split; [done|]).
  - left. split; [done|]. exists [], []. rewrite app_nil_r. auto.
  - left. split; [done|]. exists (of_string "D"), [].
    rewrite of_string_app, app_nil_r. auto.
  - right. split; [done|]. exists (of_string "s"), host, [].
    rewrite of_string_app, app_nil_r. split; [reflexivity|].
    split; [by right|]. split; [done|]. split; [done|]. done.
Qed.

(** A run of the digit "1": whether it is accepted is up to [int]. *)
Lemma check_revision_id_ones (n : nat) :
  n ≠ 0 →
  check_revision_id nd_value max_str_digits (replicate n (chr "1"))
  = if too_long max_str_digits (replicate n (chr "1")) then ValueError
    else Parsed (decimal_value nd_value (replicate n (chr "1"))).
Proof.
  intros Hn.
  rewrite (check_revision_id_text nd_value max_str_digits _
             (replicate n (chr "1"))).
  - unfold return_int, int. by destruct (too_long _ _).
  - left. split.
    + split; [by destruct n|]. by apply Forall_replicate.
    + exists [], []. rewrite app_nil_r. auto.
Qed.

End More.

(** At the default limit a run of 4300 digits is converted and a run of
    4301 digits is refused; without a limit it is converted too. *)
Lemma int_limit_boundary :
  check_revision_id ascii_only default_limit (replicate 4300 (chr "1"))
  = Parsed (decimal_value ascii_only (replicate 4300 (chr "1")))
  ∧ check_revision_id ascii_only default_limit (replicate 4301 (chr "1"))
    = ValueError
  ∧ check_revision_id ascii_only 0 (replicate 4301 (chr "1"))
    = Parsed (decimal_value ascii_only (replicate 4301 (chr "1"))).
Proof.
  rewrite !check_revision_id_ones by done.
  assert (too_long default_limit (replicate 4300 (chr "1")) = false) as ->
    by (vm_compute; reflexivity).
  assert (too_long default_limit (replicate 4301 (chr "1")) = true) as ->
    by (vm_compute; reflexivity).
  assert (too_long 0 (replicate 4301 (chr "1")) = false) as ->
    by (vm_compute; reflexivity).
  done.
Qed.
End RevisionIdMore.

(** ** Raw mode *)

(** X18.  With [--raw] and without [--no-commit], once the stack is
    resolved and the service has returned a diff for every revision,
    the run succeeds without a single call to the guard or to anything
    that changes the working tree or the history, and what it writes
    with [logger.info] is exactly the raw diff of each revision, in
    stack order. *)
Theorem raw_mode_prints_each_diff (w : World) (args : Args) (st st1 : State)
    (revisions : list Revision) (diffs : gmap string Diff) :
  raw args = true → no_commit args = false →
  resolve w args st = (Ok (revisions, diffs), st1) →
  Forall (λ rev, is_Some (diffs !! rev_diffPHID rev)) revisions →
  ∃ evs,
    (patch w args st).1 = Ok ()
    ∧ trace (patch w args st).2 = trace st ++ evs
    ∧ commits (patch w args st).2 = commits st
    ∧ Forall (λ e, is_guard_call e = false ∧ is_mutation e = false) evs
    ∧ info_texts evs = raw_texts w diffs revisions
    ∧ length (info_texts evs) = length revisions.
Proof.
  intros Hraw Hnc Hres Hall.
  destruct (raw_mode_only_prints w args st Hraw Hnc)
    as (evs & Htr & Hoff & Hcs & Hok).
  destruct (Hok revisions diffs st1 Hres Hall) as (Hrun & Htexts & Hlen).
  exists evs. repeat split; done.
Qed.

(** * The further properties at work *)

(** A dirty working tree under Mercurial. *)
Lemma guard_failure_stops_run_witness :
  patch Demo2.dirty Demo.args (init_state false)
  = (Raise (Error "Uncommitted changes present. Please shelve them or commit before patching."),
     record_all
       [Wait "Checking connection to Phabricator."; ConduitCheck;
        Wait "Checking VCS"; CheckVcs;
        Wait "Checking repository.."; IsWorktreeClean] (init_state false)).
Proof.
  apply (guard_failure_stops_run Demo2.dirty Demo.args (init_state false)).
  reflexivity.
Defined.

(** D999 does not exist. *)
Lemma unknown_revision_stops_run_witness :
  (patch Demo.friendly Demo2.args_unknown (init_state false)).1
  = Raise (Error "Revision not found").
Proof.
  rewrite (unknown_revision_stops_run Demo.friendly Demo2.args_unknown
             (init_state false)); [reflexivity | reflexivity | ].
  vm_compute. reflexivity.
Defined.

(** D102 alone, although it has a parent and a child. *)
Lemma no_dependencies_patches_root_only_witness :
  (fetch_stack Demo.friendly Demo2.args_alone (init_state false)).1
  = Ok [Demo.revision 102].
Proof.
  rewrite (no_dependencies_patches_root_only Demo.friendly Demo2.args_alone
             (init_state false) (Demo.revision 102) []);
    [reflexivity | reflexivity | vm_compute; reflexivity].
Defined.

(** [--apply-to here] on the stack D101, D102, D103. *)
Lemma apply_here_checks_no_node_witness :
  patch Demo.friendly Demo2.args_here (init_state false)
  = apply_stack Demo.friendly Demo2.args_here Demo.stack Demo.diffs 103
      (record_all [BeforePatch None (Some "phab-D103")]
         (Demo2.resolved Demo.friendly Demo2.args_here)).
Proof.
  apply (apply_here_checks_no_node Demo.friendly Demo2.args_here
           (init_state false) (Demo2.resolved Demo.friendly Demo2.args_here)
           Demo.stack Demo.diffs (Demo.revision 103));
    vm_compute; reflexivity.
Defined.

(** [--apply-to tip] when the repository knows no node. *)
Lemma explicit_target_is_checked_witness :
  patch Demo2.unknown_nodes Demo2.args_tip (init_state false)
  = (Raise (Error ("Unknown revision: tip" +:+ newline +:+ "no such node")),
     record_all [Wait "Checking tip.."; CheckNode "tip"]
       (Demo2.resolved Demo2.unknown_nodes Demo2.args_tip)).
Proof.
  rewrite (explicit_target_is_checked Demo2.unknown_nodes Demo2.args_tip
             (init_state false)
             (Demo2.resolved Demo2.unknown_nodes Demo2.args_tip)
             Demo.stack Demo.diffs (Demo.revision 103) "tip");
    [ vm_compute; reflexivity | reflexivity | reflexivity | discriminate
    | discriminate | vm_compute; reflexivity | reflexivity ].
Defined.

(** The base "abcdef" of the first diff, unknown to the repository. *)
Lemma base_target_is_checked_witness :
  (patch Demo2.unknown_nodes Demo.args (init_state false)).1
  = Raise (Error ("Unknown revision: abcdef" +:+ newline +:+ "no such node"
                  +:+ newline +:+ "Use --apply-to to set the base commit.")).
Proof.
  rewrite (base_target_is_checked Demo2.unknown_nodes Demo.args
             (init_state false)
             (Demo2.resolved Demo2.unknown_nodes Demo.args)
             Demo.stack Demo.diffs (Demo.revision 101) (Demo.revision 103)
             (Demo.diff Demo.base_refs 101) "abcdef");
    [ vm_compute; reflexivity | reflexivity | reflexivity
    | vm_compute; reflexivity | reflexivity | reflexivity
    | vm_compute; reflexivity | reflexivity | discriminate ].
Defined.

(** The three commits of a run that the repository accepts. *)
Lemma commit_mode_applies_whole_stack_witness :
  ∃ created st',
    patch Demo.friendly Demo.args (init_state false) = (Ok (), st')
    ∧ commits st' = created
    ∧ length created = 3
    ∧ last (trace st') = Some (LogWarning "D103 applied").
Proof.
  destruct (commit_mode_applies_whole_stack Demo.friendly Demo.args
              (init_state false)
              (Demo2.resolved Demo.friendly Demo.args)
              (Demo2.prepared Demo.friendly Demo.args)
              Demo.stack Demo.diffs (Demo.revision 103))
    as (created & st' & Hrun & Hcommits & Hlen & _ & Hlast);
    try (vm_compute; reflexivity).
  exists created, st'. repeat split; assumption.
Defined.

(** [--no-commit] on the stack D101, D102, D103. *)
Lemma no_commit_mode_patches_in_place_witness :
  (patch Demo.friendly Demo2.args_no_commit (init_state false)).1 = Ok ()
  ∧ commits (patch Demo.friendly Demo2.args_no_commit (init_state false)).2 = [].
Proof.
  destruct (no_commit_mode_patches_in_place Demo.friendly Demo2.args_no_commit
              (init_state false)
              (Demo2.resolved Demo.friendly Demo2.args_no_commit)
              (Demo2.prepared Demo.friendly Demo2.args_no_commit)
              Demo.stack Demo.diffs (Demo.revision 103))
    as [Hrun Hcommits];
    try (vm_compute; reflexivity).
  { repeat constructor; vm_compute; eauto. }
  split; [by rewrite Hrun | exact Hcommits].
Defined.

(** The bookmark asked for in commit mode, and none with [--no-commit]. *)
Lemma before_patch_branch_witness :
  (∃ checks base,
     Demo2.prepared Demo.friendly Demo.args
     = record_all (checks ++ [BeforePatch base (Some "phab-D103")])
         (Demo2.resolved Demo.friendly Demo.args))
  ∧ (∃ checks base,
       Demo2.prepared Demo.friendly Demo2.args_no_commit
       = record_all (checks ++ [BeforePatch base None])
           (Demo2.resolved Demo.friendly Demo2.args_no_commit)).
Proof.
  split.
  - destruct (before_patch_branch Demo.friendly Demo.args Demo.stack Demo.diffs 103
                (Demo2.resolved Demo.friendly Demo.args)
                (Demo2.prepared Demo.friendly Demo.args))
      as (checks & base & Hst & _);
      [reflexivity | vm_compute; reflexivity |].
    exists checks, base. exact Hst.
  - destruct (before_patch_branch Demo.friendly Demo2.args_no_commit
                Demo.stack Demo.diffs 103
                (Demo2.resolved Demo.friendly Demo2.args_no_commit)
                (Demo2.prepared Demo.friendly Demo2.args_no_commit))
      as (checks & base & Hst & _);
      [reflexivity | vm_compute; reflexivity |].
    exists checks, base. exact Hst.
Defined.

(** The user answers "No" to the question about D103. *)
Lemma declined_children_are_skipped_witness :
  (fetch_stack Demo2.declining Demo.args (init_state false)).1
  = Ok [Demo.revision 101; Demo.revision 102].
Proof.
  rewrite (declined_children_are_skipped Demo2.declining Demo.args
             (init_state false) (Demo.revision 102) []
             ["PHID-DREV-101"] ["PHID-DREV-103"]);
    [ vm_compute; reflexivity | reflexivity | reflexivity | reflexivity
    | reflexivity | reflexivity | discriminate | reflexivity ].
Defined.

(** The repository rejects the patch of D102. *)
Lemma stops_at_first_rejected_patch_witness :
  ∃ evs created rejected,
    commits (apply_loop Demo.world Demo.args Demo.diffs 103 None Demo.stack
               (init_state false)).2 = created
    ∧ commit_attempts evs = ((λ c, (c, true)) <$> created) ++ rejected
    ∧ length created < 3
    ∧ ∃ c, rejected = [(c, false)].
Proof.
  destruct (stops_at_first_rejected_patch Demo.world Demo.args Demo.diffs 103
              Demo.stack None (init_state false))
    as (evs & created & rejected & _ & Hcommits & Hattempts & Hres);
    [reflexivity | reflexivity |].
  exists evs, created, rejected.
  split; [exact Hcommits|]. split; [exact Hattempts|].
  assert ((apply_loop Demo.world Demo.args Demo.diffs 103 None Demo.stack
             (init_state false)).1 = Raise (Error "Patch failed to apply")) as Hrun.
  { vm_compute. reflexivity. }
  rewrite Hrun in Hres. destruct Hres as [Hlen [[_ Hno]|(c & Hrej & _)]].
  - exfalso. by apply (Hno "Patch failed to apply").
  - split; [exact Hlen|]. by exists c.
Defined.

(** [--raw] on the stack D101, D102, D103. *)
Lemma raw_mode_prints_each_diff_witness :
  ∃ evs,
    (patch Demo.friendly Demo.args_raw (init_state false)).1 = Ok ()
    ∧ info_texts evs = ["diff 1101"; "diff 1102"; "diff 1103"]
    ∧ trace (patch Demo.friendly Demo.args_raw (init_state false)).2 = evs.
Proof.
  destruct (raw_mode_prints_each_diff Demo.friendly Demo.args_raw
              (init_state false) (Demo2.resolved Demo.friendly Demo.args_raw)
              Demo.stack Demo.diffs)
    as (evs & Hrun & Htrace & _ & _ & Htexts & _);
    try (vm_compute; reflexivity).
  { repeat constructor; vm_compute; eauto. }
  exists evs. split; [exact Hrun|]. split; [|exact Htrace].
  rewrite Htexts. vm_compute. reflexivity.
Defined.

(** "abc" is neither a number nor a URL. *)
Lemma check_revision_id_error_quotes_value_witness :
  RevisionId.check_revision_id RevisionId.ascii_only RevisionId.default_limit
    (RevisionId.of_string "abc")
  = RevisionId.ArgumentTypeError
      (RevisionId.of_string "Invalid Revision ID (expected number or URL): abc"
       ++ [10%N]).
Proof.
  rewrite (RevisionIdMore.check_revision_id_error_quotes_value
             RevisionId.ascii_only RevisionId.default_limit
             (RevisionId.of_string "abc")).
  - reflexivity.
  - intros text.
    assert (RevisionId.check_revision_id RevisionId.ascii_only
              RevisionId.default_limit (RevisionId.of_string "abc")
            = RevisionId.ArgumentTypeError
                (RevisionId.invalid_msg (RevisionId.of_string "abc"))) as Hno.
    { vm_compute. reflexivity. }
    split; intros Hshape;
      rewrite (RevisionIdFacts.check_revision_id_text RevisionId.ascii_only
                 RevisionId.default_limit _ text) in Hno by auto;
      unfold RevisionId.return_int in Hno;
      by destruct (RevisionId.int _ _ text).
Defined.

(** The id 123 and the host "phabricator.example". *)
Lemma check_revision_id_reads_rendered_id_witness :
  RevisionId.check_revision_id RevisionId.ascii_only RevisionId.default_limit
    (RevisionId.of_string "123")
  = RevisionId.Parsed 123
  ∧ RevisionId.check_revision_id RevisionId.ascii_only RevisionId.default_limit
      (RevisionId.of_string "D123")
    = RevisionId.Parsed 123
  ∧ RevisionId.check_revision_id RevisionId.ascii_only RevisionId.default_limit
      (RevisionId.of_string "https://phabricator.example/D123")
    = RevisionId.Parsed 123.
Proof.
  apply (RevisionIdMore.check_revision_id_reads_rendered_id
           RevisionId.ascii_only RevisionId.default_limit 123
           (RevisionId.of_string "phabricator.example")).
  - lia.
  - reflexivity.
  - discriminate.
  - vm_compute. repeat constructor; discriminate.
Defined.
